(** * Buoyo bookmark scraper: a shallow embedding of [bookmark-scraper-v2.js]

    The script harvests tweets from a live page.  It keeps a global
    [mediaMap] filled by the patched [fetch]/[XMLHttpRequest.open], and a
    [TweetScraper] object whose methods are driven by a scroll timer and a
    [MutationObserver].

    The embedding follows the source function by function.  The DOM is
    represented by what the code reads from it: an [Element] is a snapshot of
    the query results of one [article] at the moment a method looks at it, so
    a page that changes between two callbacks is two snapshots.  Everything
    the script does to the outside (scrolling, exporting a batch, tearing the
    timer and the observer down, the console lines that mark a capture) is
    appended to a chronological [trace]. *)

From Stdlib Require Import String Ascii ZArith List Bool.
From stdpp Require Import base gmap sets list strings.

Local Open Scope string_scope.
Local Open Scope Z_scope.

(** ** String primitives of JavaScript used by the script *)

Module JsString.

(** [s.includes(sub)] *)
Fixpoint includes (s sub : string) : bool :=
  String.prefix sub s ||
  match s with
  | EmptyString => false
  | String _ s' => includes s' sub
  end.

(** [s.endsWith(suf)] *)
Fixpoint endsWith (s suf : string) : bool :=
  String.eqb s suf ||
  match s with
  | EmptyString => false
  | String _ s' => endsWith s' suf
  end.

(** [s.split(sep)] for a one-character separator: never empty. *)
Fixpoint split (sep : ascii) (s : string) : list string :=
  match s with
  | EmptyString => [EmptyString]
  | String c s' =>
      if Ascii.eqb c sep then EmptyString :: split sep s'
      else match split sep s' with
           | h :: t => String c h :: t
           | [] => [String c EmptyString]
           end
  end.

(** A string used as a condition: the empty string is falsy. *)
Definition truthy (s : string) : bool := negb (String.eqb s EmptyString).

Definition is_digit (c : ascii) : bool :=
  (48 <=? nat_of_ascii c)%nat && (nat_of_ascii c <=? 57)%nat.

Fixpoint all_digits (s : string) : bool :=
  match s with
  | EmptyString => true
  | String c s' => is_digit c && all_digits s'
  end.

(** [/^\d+$/.test(s)] *)
Definition test_digits (s : string) : bool := truthy s && all_digits s.

(** The longest run of digits at the head of [s], and what follows it. *)
Fixpoint span_digits (s : string) : string * string :=
  match s with
  | EmptyString => (EmptyString, EmptyString)
  | String c s' =>
      if is_digit c
      then let (ds, r) := span_digits s' in (String c ds, r)
      else (EmptyString, s)
  end.

Fixpoint drop (n : nat) (s : string) : string :=
  match n, s with
  | O, _ => s
  | S n', String _ s' => drop n' s'
  | S _, EmptyString => EmptyString
  end.

(** One attempt of [lit(\d+)\/] at the head of [s].  The greedy [\d+] takes
    the whole digit run; giving digits back cannot help, since the
    character after a shorter run is a digit and not a slash. *)
Definition match_id_at (lit s : string) : option string :=
  if String.prefix lit s then
    let (ds, r) := span_digits (drop (String.length lit) s) in
    if truthy ds && String.prefix "/" r then Some ds else None
  else None.

(** [s.match(/lit(\d+)\//)] for a literal [lit]: capture group 1 of the
    leftmost match, or [None] for [null]. *)
Fixpoint match_id (lit s : string) : option string :=
  match match_id_at lit s with
  | Some ds => Some ds
  | None =>
      match s with
      | EmptyString => None
      | String _ s' => match_id lit s'
      end
  end.

Definition dquote : ascii := ascii_of_nat 34.

(** The two line terminators of one byte, LF and CR. *)
Definition is_line_terminator (c : ascii) : bool :=
  Ascii.eqb c (ascii_of_nat 10) || Ascii.eqb c (ascii_of_nat 13).

(** [.] of a regular expression without the [s] flag refuses the four line
    terminators: LF, CR, U+2028 and U+2029.  A string here is the UTF-8 text
    of the JavaScript string, where the last two are the bytes 226 128 168
    and 226 128 169.  [at_line_terminator s] tells whether [s] starts with
    one of the four. *)
Definition at_line_terminator (s : string) : bool :=
  match s with
  | EmptyString => false
  | String c s' =>
      is_line_terminator c ||
      (Ascii.eqb c (ascii_of_nat 226) &&
       match s' with
       | String c1 (String c2 _) =>
           Ascii.eqb c1 (ascii_of_nat 128) &&
           (Ascii.eqb c2 (ascii_of_nat 168) || Ascii.eqb c2 (ascii_of_nat 169))
       | _ => false
       end)
  end.

(** The tail of the pattern once the lazy group holds [acc] (not empty): stop at
    the first place where an optional quote and a closing parenthesis
    follow, else give the lazy group one more character. *)
Fixpoint lazy_close (acc s : string) : option string :=
  match s with
  | EmptyString => None
  | String c s' =>
      if Ascii.eqb c ")" then Some acc
      else if Ascii.eqb c dquote && String.prefix ")" s' then Some acc
      else if at_line_terminator (String c s') then None
      else lazy_close (acc ++ String c EmptyString) s'
  end.

Definition lazy_group (s : string) : option string :=
  match s with
  | EmptyString => None
  | String c s' =>
      if at_line_terminator (String c s') then None
      else lazy_close (String c EmptyString) s'
  end.

(** The pattern after its literal [url(], at the head of [s]: the greedy
    optional quote is taken first and given back when the rest then fails. *)
Definition url_at (s : string) : option string :=
  match s with
  | String c s' =>
      if Ascii.eqb c dquote then
        match lazy_group s' with
        | Some u => Some u
        | None => lazy_group s
        end
      else lazy_group s
  | EmptyString => None
  end.

(** [s.match] with the pattern of [extractMedia]: the literal [url(], an
    optional double quote, a lazy non-empty group, an optional double quote
    and a closing parenthesis.  Capture group 1 of the leftmost match. *)
Fixpoint match_url (s : string) : option string :=
  match (if String.prefix "url(" s then url_at (drop 4 s) else None) with
  | Some u => Some u
  | None =>
      match s with
      | EmptyString => None
      | String _ s' => match_url s'
      end
  end.

End JsString.

(** ** A JavaScript [Set] of strings: insertion order, no duplicates *)

Module JsSet.

Fixpoint mem (x : string) (l : list string) : bool :=
  match l with
  | [] => false
  | y :: l' => String.eqb x y || mem x l'
  end.

(** [set.add(x)] *)
Definition add (l : list string) (x : string) : list string :=
  if mem x l then l else l ++ [x].

(** [new Set(xs)], read back with the spread operator *)
Definition of_list (xs : list string) : list string := fold_left add xs [].

End JsSet.

(** ** Numbers of JavaScript *)

Module JsNumber.

(** The numbers of the script are IEEE doubles.  The model keeps the ones
    that are integers, as [Z].  [round z] is the double nearest to the
    integer [z], ties going to the even significand of 53 bits: up to 2^53
    in magnitude every integer is a double.  Magnitudes from 2^1024 on,
    which JavaScript turns into an infinity, are outside the model. *)
Definition round (z : Z) : Z :=
  let a := Z.abs z in
  if a <=? 2 ^ 53 then z
  else
    let e := Z.log2 a - 52 in
    let q := Z.shiftr a e in
    let r := a - Z.shiftl q e in
    let half := Z.shiftl 1 (e - 1) in
    let q' :=
      if r <? half then q
      else if half <? r then q + 1
      else if Z.even q then q else q + 1 in
    Z.sgn z * Z.shiftl q' e.

(** [a * b] on two such numbers: the exact product, rounded once. *)
Definition mul (a b : Z) : Z := round (a * b).

End JsNumber.

(** ** The page as the script reads it *)

(** The five counters of [extractInteractionData]. *)
Record Interaction := mkInteraction {
  replies : Z;
  reposts : Z;
  likes : Z;
  bookmarks : Z;
  views : Z
}.

(** The [time] node of an article, by the three things read from it. *)
Record TimeEl := mkTimeEl {
  (** [getAttribute] of its datetime, [None] for [null] *)
  time_datetime : option string;
  (** [parentElement.href], [None] when there is no parent or no [href] *)
  time_parentHref : option string;
  (** the [href] of [closest] anchor, [None] when there is none *)
  time_closestLinkHref : option string
}.

(** One [article] node, as a snapshot of the queries the scraper runs on it. *)
Record Element := mkElement {
  (** [innerText] of the User-Name node *)
  el_userName : option string;
  (** [querySelector] of the [time] node *)
  el_time : option TimeEl;
  (** [innerText] of the tweetText node *)
  el_tweetText : option string;
  (** what [extractInteractionData] reads off the labelled nodes *)
  el_interaction : Interaction;
  (** the [href] of every anchor whose attribute has [/status/], in order *)
  el_statusLinks : list string;
  (** the [src] of the photo [img] nodes, in order *)
  el_imgSrcs : list string;
  (** [style.backgroundImage] of the photo nodes styled with one, in order *)
  el_bgImages : list string;
  (** the [src] of the [source] children of [video] nodes, in order *)
  el_videoSources : list string
}.

(** A harvested record, the object built by [extractTweetData]. *)
Record Tweet := mkTweet {
  tweetId : string;
  authorName : option string;
  tweetText : option string;
  timeISO : option string;
  postUrl : string;
  interaction : Interaction;
  images : list string;
  videos : list string
}.

Definition set_images (v : list string) (t : Tweet) : Tweet :=
  mkTweet (tweetId t) (authorName t) (tweetText t) (timeISO t) (postUrl t)
          (interaction t) v (videos t).

Definition set_videos (v : list string) (t : Tweet) : Tweet :=
  mkTweet (tweetId t) (authorName t) (tweetText t) (timeISO t) (postUrl t)
          (interaction t) (images t) v.

(** The result object of [extractMedia]. *)
Record Media := mkMedia {
  m_images : list string;
  m_videos : list string;
  m_thumbnails : list string
}.

(** ** Extraction *)

(** [extractTweetId]: the last path segment of the link around the [time]
    node, without its query string, when it is all digits. *)
Definition extractTweetId (tweetEl : Element) : option string :=
  match el_time tweetEl with
  | None => None
  | Some t =>
      match time_parentHref t with
      | None => None
      | Some href =>
          if JsString.truthy href then
            let parts := JsString.split "/" href in
            let candidate :=
              hd EmptyString (JsString.split "?" (List.last parts EmptyString)) in
            if JsString.test_digits candidate then Some candidate else None
          else None
      end
  end.

(** The two sets [extractMedia] fills, [imageSources] and
    [thumbnailSources], and the test that routes a url to one of them or to
    neither. *)
Definition route (acc : list string * list string) (url : string)
  : list string * list string :=
  if JsString.includes url "ext_tw_video_thumb"
  then (fst acc, JsSet.add (snd acc) url)
  else if JsString.includes url "pbs.twimg.com/media"
       then (JsSet.add (fst acc) url, snd acc)
       else acc.

(** The body of the loop over the image nodes. *)
Definition classify_img (acc : list string * list string) (src : string)
  : list string * list string :=
  if JsString.truthy src then route acc src else acc.

(** The body of the loop over the nodes with a background image. *)
Definition classify_bg (acc : list string * list string) (style : string)
  : list string * list string :=
  match JsString.match_url style with
  | Some url => if JsString.truthy url then route acc url else acc
  | None => acc
  end.

(** [extractMedia] *)
Definition extractMedia (root : Element) : Media :=
  let after_img := fold_left classify_img (el_imgSrcs root) ([], []) in
  let after_bg := fold_left classify_bg (el_bgImages root) after_img in
  mkMedia (fst after_bg)
          (JsSet.of_list (el_videoSources root))
          (snd after_bg).

(** The loop of [extractTweetData] over the thumbnails: every url stored
    under the thumbnail's media id joins [finalVideoUrls]. *)
Definition correlate (mediaMap : gmap string (list string))
    (finalVideoUrls : list string) (thumbUrl : string) : list string :=
  match JsString.match_id "ext_tw_video_thumb/" thumbUrl with
  | Some mediaId =>
      if JsString.truthy mediaId then
        let capturedUrls := default [] (mediaMap !! mediaId) in
        fold_left JsSet.add capturedUrls finalVideoUrls
      else finalVideoUrls
  | None => finalVideoUrls
  end.

(** The first link ending in the id, as the [for] loop with [break] finds it. *)
Fixpoint first_ending (links : list string) (suffix : string) : string :=
  match links with
  | [] => EmptyString
  | href :: rest =>
      if JsString.endsWith href suffix then href else first_ending rest suffix
  end.

(** The post url of [extractTweetData], with its two fallbacks. *)
Definition resolvePostUrl (el : Element) (tweetId : string) : string :=
  let postUrl := first_ending (el_statusLinks el) ("/" ++ tweetId) in
  if JsString.truthy postUrl then postUrl
  else
    let timeLink :=
      match el_time el with
      | Some t => time_closestLinkHref t
      | None => None
      end in
    match timeLink with
    | Some href =>
        if JsString.includes href ("/status/" ++ tweetId) then href
        else hd EmptyString (el_statusLinks el)
    | None => hd EmptyString (el_statusLinks el)
    end.

(** [extractTweetData]; [None] is the [null] returned without a [time] node.
    The console line about found captured urls is not recorded. *)
Definition extractTweetData (mediaMap : gmap string (list string))
    (el : Element) (tweetId : string) : option Tweet :=
  match el_time el with
  | None => None
  | Some timeEl =>
      let media := extractMedia el in
      let finalVideoUrls :=
        fold_left (correlate mediaMap) (m_thumbnails media)
                  (JsSet.of_list (m_videos media)) in
      Some (mkTweet tweetId (el_userName el) (el_tweetText el)
                    (time_datetime timeEl) (resolvePostUrl el tweetId)
                    (el_interaction el) (m_images media) finalVideoUrls)
  end.

(** ** The scraper and its surroundings *)

(** What the script does to the outside, in the order it does it. *)
Inductive Effect :=
  (** [window.scrollBy(0, dy)] *)
  | ScrollBy (dy : Z)
  (** [downloadTweetsAsJson] ran to its end: the batch left as a file *)
  | Exported (batch : list Tweet)
  (** [downloadTweetsAsJson] threw inside its [try]: the console error *)
  | ExportError (batch : list Tweet)
  (** [clearInterval(this.scrollTimer)] *)
  | ClearInterval
  (** [this.observer.disconnect()] *)
  | Disconnect
  (** [this.hud.remove()] *)
  | HudRemove
  (** the console line of [stash] *)
  | LogStashed (mediaId url : string)
  (** the console line after a push: the id and the batch length *)
  | LogCaptured (tweetId : string) (total : nat)
  (** the console line on the stop id *)
  | LogReachedStop (tweetId : string)
  (** the console line that ends [cleanup] *)
  | LogStopped.

(** The options object given to the constructor; [None] is an absent key. *)
Record Options := mkOptions {
  o_scrollIntervalMs : option Z;
  o_scrollStep : option Z;
  o_batchSize : option Z;
  o_stopAtTweetId : option string;
  o_skipTweetIds : option (list string)
}.

(** The fields of a [TweetScraper] set once by the constructor. *)
Record Config := mkConfig {
  scrollIntervalMs : Z;
  scrollStep : Z;
  batchSize : Z;
  stopAtTweetId : option string;
  skipTweetIds : list string
}.

(** The mutable fields of the scraper, then the state around it: whether
    the interval timer and the observer are live, whether the HUD node is in
    the page and what it shows, the global [mediaMap], and the trace. *)
Record World := mkWorld {
  cfg : Config;
  tweets : list Tweet;
  processedTweetIds : gset string;
  batchIndex : nat;
  stuckCount : nat;
  previousHeight : Z;
  hudText : nat * nat;
  hudAttached : bool;
  timerActive : bool;
  observerConnected : bool;
  mediaMap : gmap string (list string);
  trace : list Effect
}.

Definition set_tweets (v : list Tweet) (w : World) : World :=
  mkWorld (cfg w) v (processedTweetIds w) (batchIndex w) (stuckCount w)
    (previousHeight w) (hudText w) (hudAttached w) (timerActive w)
    (observerConnected w) (mediaMap w) (trace w).

Definition set_processedTweetIds (v : gset string) (w : World) : World :=
  mkWorld (cfg w) (tweets w) v (batchIndex w) (stuckCount w)
    (previousHeight w) (hudText w) (hudAttached w) (timerActive w)
    (observerConnected w) (mediaMap w) (trace w).

Definition set_batchIndex (v : nat) (w : World) : World :=
  mkWorld (cfg w) (tweets w) (processedTweetIds w) v (stuckCount w)
    (previousHeight w) (hudText w) (hudAttached w) (timerActive w)
    (observerConnected w) (mediaMap w) (trace w).

Definition set_stuckCount (v : nat) (w : World) : World :=
  mkWorld (cfg w) (tweets w) (processedTweetIds w) (batchIndex w) v
    (previousHeight w) (hudText w) (hudAttached w) (timerActive w)
    (observerConnected w) (mediaMap w) (trace w).

Definition set_previousHeight (v : Z) (w : World) : World :=
  mkWorld (cfg w) (tweets w) (processedTweetIds w) (batchIndex w)
    (stuckCount w) v (hudText w) (hudAttached w) (timerActive w)
    (observerConnected w) (mediaMap w) (trace w).

Definition set_hudText (v : nat * nat) (w : World) : World :=
  mkWorld (cfg w) (tweets w) (processedTweetIds w) (batchIndex w)
    (stuckCount w) (previousHeight w) v (hudAttached w) (timerActive w)
    (observerConnected w) (mediaMap w) (trace w).

Definition set_hudAttached (v : bool) (w : World) : World :=
  mkWorld (cfg w) (tweets w) (processedTweetIds w) (batchIndex w)
    (stuckCount w) (previousHeight w) (hudText w) v (timerActive w)
    (observerConnected w) (mediaMap w) (trace w).

Definition set_timerActive (v : bool) (w : World) : World :=
  mkWorld (cfg w) (tweets w) (processedTweetIds w) (batchIndex w)
    (stuckCount w) (previousHeight w) (hudText w) (hudAttached w) v
    (observerConnected w) (mediaMap w) (trace w).

Definition set_observerConnected (v : bool) (w : World) : World :=
  mkWorld (cfg w) (tweets w) (processedTweetIds w) (batchIndex w)
    (stuckCount w) (previousHeight w) (hudText w) (hudAttached w)
    (timerActive w) v (mediaMap w) (trace w).

Definition set_mediaMap (v : gmap string (list string)) (w : World) : World :=
  mkWorld (cfg w) (tweets w) (processedTweetIds w) (batchIndex w)
    (stuckCount w) (previousHeight w) (hudText w) (hudAttached w)
    (timerActive w) (observerConnected w) v (trace w).

(** Append one effect to the trace. *)
Definition emit (e : Effect) (w : World) : World :=
  mkWorld (cfg w) (tweets w) (processedTweetIds w) (batchIndex w)
    (stuckCount w) (previousHeight w) (hudText w) (hudAttached w)
    (timerActive w) (observerConnected w) (mediaMap w) (trace w ++ [e]).

(** ** The network side channel *)

(** [stash] *)
Definition stash (url : string) (w : World) : World :=
  match JsString.match_id "ext_tw_video/" url with
  | None => w
  | Some mediaId =>
      let stored := (default [] (mediaMap w !! mediaId) ++ [url])%list in
      emit (LogStashed mediaId url)
           (set_mediaMap (<[mediaId := stored]> (mediaMap w)) w)
  end.

(** The patched [fetch] and [XMLHttpRequest.open], for a url given as a
    string: both stash the url when it names the video host. *)
Definition on_request (url : string) (w : World) : World :=
  if JsString.includes url "video.twimg.com" then stash url w else w.

(** ** Methods of [TweetScraper] *)

(** [updateHud]; [this.hud] is set from [initHud] on. *)
Definition updateHud (w : World) : World :=
  set_hudText (batchIndex w, length (tweets w)) w.

(** [downloadTweetsAsJson]: [ok] tells whether the body of the [try] ran
    through; when it did not, the [catch] writes to the console and the
    method returns normally all the same. *)
Definition downloadTweetsAsJson (ok : bool) (tweetsArray : list Tweet)
    (w : World) : World :=
  if ok then emit (Exported tweetsArray) w
  else emit (ExportError tweetsArray) w.

(** [cleanup]; [this.observer] and [this.hud] are set from the constructor
    on, so both guards pass. *)
Definition cleanup (ok : bool) (w : World) : World :=
  let w1 :=
    match tweets w with
    | [] => w
    | _ :: _ => downloadTweetsAsJson ok (tweets w) w
    end in
  let w2 := set_timerActive false (emit ClearInterval w1) in
  let w3 := set_observerConnected false (emit Disconnect w2) in
  let w4 := set_hudAttached false (emit HudRemove w3) in
  emit LogStopped w4.

(** The two guarded assignments of the late-media branch of [updateTweets],
    on the record [already]. *)
Definition late_media (media : Media) (already : Tweet) : Tweet :=
  let t1 :=
    match m_images media, images already with
    | _ :: _, [] => set_images (m_images media) already
    | _, _ => already
    end in
  match m_videos media, videos t1 with
  | _ :: _, [] => set_videos (m_videos media) t1
  | _, _ => t1
  end.

(** [f] applied in place to the record [this.tweets.find] returns, the
    first one with the given id; nothing happens when [find] has none. *)
Fixpoint update_first (tid : string) (f : Tweet -> Tweet) (l : list Tweet)
  : list Tweet :=
  match l with
  | [] => []
  | t :: rest =>
      if String.eqb (tweetId t) tid then f t :: rest
      else t :: update_first tid f rest
  end.

(** [tweetId === this.stopAtTweetId] *)
Definition is_stop (w : World) (tid : string) : bool :=
  match stopAtTweetId (cfg w) with
  | Some stop => String.eqb tid stop
  | None => false
  end.

(** The end of the loop body of [updateTweets], for a new record: the id
    joins the processed set, the record is pushed, the HUD and the console
    are told. *)
Definition capture (tid : string) (tweetData : Tweet) (w : World) : World :=
  let w1 := set_processedTweetIds (processedTweetIds w ∪ {[tid]}) w in
  let w2 := set_tweets (tweets w1 ++ [tweetData]) w1 in
  let w3 := updateHud w2 in
  emit (LogCaptured tid (length (tweets w3))) w3.

(** The [for] loop of [updateTweets]; [seeded] is the truthiness of
    [seedEls].  The [return] in the stop branch leaves the rest of the
    elements unvisited. *)
Fixpoint updateTweets_loop (seeded ok : bool) (tweetEls : list Element)
    (w : World) : World :=
  match tweetEls with
  | [] => w
  | el :: rest =>
      match extractTweetId el with
      | None => updateTweets_loop seeded ok rest w
      | Some tid =>
          if decide (tid ∈ processedTweetIds w) then
            let w' :=
              if seeded
              then set_tweets
                     (update_first tid (late_media (extractMedia el)) (tweets w)) w
              else w in
            updateTweets_loop seeded ok rest w'
          else if is_stop w tid then
            cleanup ok (emit (LogReachedStop tid) w)
          else
            match extractTweetData (mediaMap w) el tid with
            | None => updateTweets_loop seeded ok rest w
            | Some tweetData =>
                updateTweets_loop seeded ok rest (capture tid tweetData w)
            end
      end
  end.

(** [updateTweets(seedEls)]; [document] is what the query for all articles
    returns when [seedEls] is [null]. *)
Definition updateTweets (ok : bool) (seedEls : option (list Element))
    (document : list Element) (w : World) : World :=
  let tweetEls := default document seedEls in
  updateTweets_loop (bool_decide (is_Some seedEls)) ok tweetEls w.

(** The callback given to [setInterval] by [initScroll]; [currentHeight] is
    the [scrollHeight] it reads on entry. *)
Definition tick (ok : bool) (currentHeight : Z) (w : World) : World :=
  let w1 := emit (ScrollBy (scrollStep (cfg w))) w in
  let w2 :=
    if currentHeight =? previousHeight w1 then
      let w' := set_stuckCount (S (stuckCount w1)) w1 in
      if (3 <=? stuckCount w')%nat
      then set_stuckCount 0
             (emit (ScrollBy (JsNumber.mul (scrollStep (cfg w')) 3)) w')
      else w'
    else set_stuckCount 0 w1 in
  let w3 := set_previousHeight currentHeight w2 in
  if batchSize (cfg w3) <=? Z.of_nat (length (tweets w3)) then
    let w4 := downloadTweetsAsJson ok (tweets w3) w3 in
    let w5 := set_tweets [] w4 in
    set_batchIndex (S (batchIndex w5)) w5
  else w3.

(** The callback given to [MutationObserver]: [arts] lists, in order, the
    article [closest] finds for each added element node that has one, with
    the outcome an export would have during that call. *)
Definition observer_callback (arts : list (Element * bool)) (w : World)
  : World :=
  fold_left (fun acc '(art, ok) => updateTweets ok (Some [art]) [] acc) arts w.

(** [a || d] on a number option *)
Definition number_or (a : option Z) (d : Z) : Z :=
  match a with
  | Some v => if v =? 0 then d else v
  | None => d
  end.

(** [a || null] on a string option *)
Definition string_or_null (a : option string) : option string :=
  match a with
  | Some s => if JsString.truthy s then Some s else None
  | None => None
  end.

(** The constructor: [mediaMap0] is the global table when it runs and
    [document] the articles then in the page. *)
Definition new_TweetScraper (options : Options)
    (mediaMap0 : gmap string (list string)) (document : list Element)
    (ok : bool) : World :=
  let c := mkConfig (number_or (o_scrollIntervalMs options) 1000)
                    (number_or (o_scrollStep options) 800)
                    (number_or (o_batchSize options) 100)
                    (string_or_null (o_stopAtTweetId options))
                    (JsSet.of_list (default [] (o_skipTweetIds options))) in
  let w0 := mkWorld c [] ∅ 0 0 0 (0%nat, 0%nat) false false false mediaMap0 [] in
  (* initHud *)
  let w1 := updateHud (set_hudAttached true w0) in
  (* skipTweetIds count as processed *)
  let w2 :=
    set_processedTweetIds
      (fold_left (fun acc tid => acc ∪ {[tid]}) (skipTweetIds c)
                 (processedTweetIds w1)) w1 in
  (* initObserver, initScroll *)
  let w3 := set_timerActive true (set_observerConnected true w2) in
  updateTweets ok None document w3.

(** ** A session: the constructor, then what the page delivers *)

Inductive Event :=
  (** the page requests [url] through [fetch] or [XMLHttpRequest] *)
  | Request (url : string)
  (** the interval elapses *)
  | TimerFires (currentHeight : Z) (ok : bool)
  (** a batch of mutation records is delivered *)
  | Mutated (arts : list (Element * bool))
  (** somebody calls [scraper.cleanup()] *)
  | StopCall (ok : bool).

(** A cleared interval does not fire and a disconnected observer is not
    called back. *)
Definition step (w : World) (e : Event) : World :=
  match e with
  | Request url => on_request url w
  | TimerFires h ok => if timerActive w then tick ok h w else w
  | Mutated arts => if observerConnected w then observer_callback arts w else w
  | StopCall ok => cleanup ok w
  end.

Definition run (w : World) (events : list Event) : World :=
  fold_left step events w.

Definition session (options : Options) (mediaMap0 : gmap string (list string))
    (document : list Element) (ok : bool) (events : list Event) : World :=
  run (new_TweetScraper options mediaMap0 document ok) events.

(** ** Reading the trace *)

(** The distances scrolled, in order. *)
Definition scrolls (tr : list Effect) : list Z :=
  omap (fun e => match e with ScrollBy dy => Some dy | _ => None end) tr.

(** The batches handed to [downloadTweetsAsJson], in order, whether the
    export went through or not. *)
Definition flush_attempts (tr : list Effect) : list (list Tweet) :=
  omap (fun e => match e with
                 | Exported b | ExportError b => Some b
                 | _ => None
                 end) tr.

(** The ids of the records pushed on [this.tweets], in order: each push is
    followed by its console line. *)
Definition captured_ids (tr : list Effect) : list string :=
  omap (fun e => match e with LogCaptured tid _ => Some tid | _ => None end) tr.

(** The position of the first effect satisfying [p]. *)
Fixpoint position (p : Effect -> bool) (tr : list Effect) : option nat :=
  match tr with
  | [] => None
  | e :: rest => if p e then Some O else S <$> position p rest
  end.

Definition is_flush (e : Effect) : bool :=
  match e with Exported _ | ExportError _ => true | _ => false end.

Definition is_clear_interval (e : Effect) : bool :=
  match e with ClearInterval => true | _ => false end.

Definition is_disconnect (e : Effect) : bool :=
  match e with Disconnect => true | _ => false end.

(** ** The claims in their own words, to be compared with the code *)

(** The urls [extractMedia] gets from the image nodes and from the nodes
    with a background image. *)
Definition collected_urls (root : Element) : list string :=
  List.filter JsString.truthy (el_imgSrcs root) ++
  List.filter JsString.truthy (omap JsString.match_url (el_bgImages root)).

(** The permalink as the three-stage chain describes it: a status link
    ending in a slash and the id; else the link around the time node when its
    url contains the status path of the id; else the first status link; else
    the empty string. *)
Definition permalink_spec (el : Element) (id : string) : string :=
  match List.find (fun href => JsString.endsWith href ("/" ++ id))
                  (el_statusLinks el) with
  | Some href => href
  | None =>
      let first_status_link :=
        match el_statusLinks el with
        | href :: _ => href
        | [] => EmptyString
        end in
      match el_time el with
      | Some t =>
          match time_closestLinkHref t with
          | Some href =>
              if JsString.includes href ("/status/" ++ id) then href
              else first_status_link
          | None => first_status_link
          end
      | None => first_status_link
      end
  end.

(** Two records that differ at most in [images] and [videos]. *)
Definition same_but_media (t t' : Tweet) : Prop :=
  t' = set_videos (videos t') (set_images (images t') t).

(** What one tick does to the stall counter, and the distances it scrolls. *)
Definition tick_outcome (currentHeight : Z) (w : World) : nat * list Z :=
  if currentHeight =? previousHeight w then
    if (3 <=? S (stuckCount w))%nat
    then (0%nat, [scrollStep (cfg w); JsNumber.mul (scrollStep (cfg w)) 3])
    else (S (stuckCount w), [scrollStep (cfg w)])
  else (0%nat, [scrollStep (cfg w)]).

(** The effect of one call of [downloadTweetsAsJson]. *)
Definition export_effect (ok : bool) (batch : list Tweet) : Effect :=
  if ok then Exported batch else ExportError batch.

(** The flush [cleanup] starts with: none for an empty batch. *)
Definition final_flush (ok : bool) (w : World) : list Effect :=
  match tweets w with
  | [] => []
  | _ :: _ => [export_effect ok (tweets w)]
  end.

(** ** Concrete pages and scrapers used as examples *)

Module Examples.

Definition no_interaction : Interaction := mkInteraction 0 0 0 0 0.

(** A captured record without media. *)
Definition t7 : Tweet :=
  mkTweet "7" (Some "ann") (Some "hello") (Some "2025-04-21T10:00:00.000Z")
          "https://x.com/ann/status/7" no_interaction [] [].

(** A running scraper with a batch size of one and one record pending. *)
Definition full_world : World :=
  mkWorld (mkConfig 1000 800 1 None []) [t7] {["7"]} 0 0 4000 (0%nat, 1%nat)
          true true true ∅ [].

(** A scraper with the default options whose last tick read a height of
    4000, with nothing captured. *)
Definition stalled_world : World :=
  mkWorld (mkConfig 1000 800 100 None []) [] ∅ 0 0 4000 (0%nat, 0%nat)
          true true true ∅ [].

(** An article of user [ann] as the page renders it: the link around the
    time node is the status link of the id. *)
Definition article (id : string) (imgSrcs videoSources : list string)
  : Element :=
  let href := "https://x.com/ann/status/" ++ id in
  mkElement (Some "ann")
            (Some (mkTimeEl (Some "2025-04-21T10:00:00.000Z")
                            (Some href) (Some href)))
            (Some "hello") no_interaction [href] imgSrcs [] videoSources.

(** A running scraper told to stop at id 9, with nothing pending. *)
Definition stop_world : World :=
  mkWorld (mkConfig 1000 800 100 (Some "9") []) [] ∅ 0 0 4000
          (0%nat, 0%nat) true true true ∅ [].

Definition thumb_url : string :=
  "https://pbs.twimg.com/ext_tw_video_thumb/123456/pu/img/r.jpg".

Definition video_url : string :=
  "https://video.twimg.com/ext_tw_video/123456/pu/vid/720x1280/a.mp4".

(** An article whose only media node is the thumbnail of video 123456. *)
Definition video_article : Element := article "7" [thumb_url] [].

Definition default_options : Options := mkOptions None None None None None.

Definition skip_options : Options :=
  mkOptions None None None None (Some ["5"; "9"]).

End Examples.

(** ** The invariant of a harvesting session *)

(** Ids are captured once; a captured id is in the processed set; every
    pending or exported record carries a captured id; pending ids are
    distinct; the ids to skip are processed and never captured. *)
Record Harvest_inv (w : World) : Prop := mkHarvest_inv {
  inv_nodup : NoDup (captured_ids (trace w));
  inv_processed :
    ∀ id, id ∈ captured_ids (trace w) → id ∈ processedTweetIds w;
  inv_pending :
    ∀ t, t ∈ tweets w → tweetId t ∈ captured_ids (trace w);
  inv_pending_nodup : NoDup (map tweetId (tweets w));
  inv_flushed :
    ∀ b t, b ∈ flush_attempts (trace w) → t ∈ b →
           tweetId t ∈ captured_ids (trace w);
  inv_skip :
    ∀ id, id ∈ skipTweetIds (cfg w) →
          id ∈ processedTweetIds w ∧ id ∉ captured_ids (trace w)
}.

(** [url] is among the urls the correlation table holds for [mediaId]. *)
Definition stored (m : gmap string (list string)) (mediaId url : string)
  : Prop :=
  url ∈ default [] (m !! mediaId).

(** The two substring tests of [extractMedia]. *)
Definition is_thumbnail_url (u : string) : bool :=
  JsString.includes u "ext_tw_video_thumb".

Definition is_photo_url (u : string) : bool :=
  JsString.includes u "pbs.twimg.com/media".

(** ** Vocabulary for the properties of the string handling *)

(** [c] occurs in [s]. *)
Fixpoint contains_char (c : ascii) (s : string) : bool :=
  match s with
  | EmptyString => false
  | String d s' => Ascii.eqb d c || contains_char c s'
  end.

(** [s] is empty or starts with [c]. *)
Definition empty_or_starts_with (c : ascii) (s : string) : Prop :=
  s = EmptyString ∨ ∃ s', s = String c s'.

(** [s] is empty or ends with [c]. *)
Definition empty_or_ends_with (c : ascii) (s : string) : Prop :=
  s = EmptyString ∨ ∃ s', s = (s' ++ String c EmptyString)%string.

(** [s] has, right after [pre], the literal [lit], the digits [ds] (at
    least one) and a slash: one place where the pattern of [stash] and of
    the thumbnail loop matches. *)
Definition id_occurrence (lit s pre ds : string) : Prop :=
  JsString.test_digits ds = true ∧
  ∃ post, s = (pre ++ lit ++ ds ++ "/" ++ post)%string.

(** Every key of the correlation table is a run of digits, and every url
    under a key names the video host and has the key in the place the
    pattern of [stash] reads it from. *)
Definition table_ok (m : gmap string (list string)) : Prop :=
  ∀ k urls, m !! k = Some urls →
    JsString.test_digits k = true ∧
    ∀ u, u ∈ urls →
      JsString.includes u "video.twimg.com" = true ∧
      JsString.includes u ("ext_tw_video/" ++ k ++ "/")%string = true.

(** ** More session invariants *)

Definition is_stop_call (e : Event) : bool :=
  match e with StopCall _ => true | _ => false end.

(** The configured stop id is never captured, and a captured id is never
    lost: its record is pending or was handed to the export in some batch. *)
Record Ledger_inv (w : World) : Prop := mkLedger_inv {
  led_stop :
    ∀ sid, stopAtTweetId (cfg w) = Some sid → sid ∉ captured_ids (trace w);
  led_kept :
    ∀ id, id ∈ captured_ids (trace w) →
          id ∈ map tweetId (tweets w) ∨
          ∃ b, b ∈ flush_attempts (trace w) ∧ id ∈ map tweetId b
}.


(** What stays the same from [w] to [w'] while nothing but requests has an
    effect. *)
Definition only_requests_since (w w' : World) : Prop :=
  tweets w' = tweets w ∧
  processedTweetIds w' = processedTweetIds w ∧
  batchIndex w' = batchIndex w ∧
  captured_ids (trace w') = captured_ids (trace w) ∧
  flush_attempts (trace w') = flush_attempts (trace w) ∧
  scrolls (trace w') = scrolls (trace w) ∧
  timerActive w' = false ∧
  observerConnected w' = false.

(** A url that can stand between the parentheses of a css [url(...)]: no
    closing parenthesis, no double quote, and none of the four line
    terminators anywhere in it. *)
Fixpoint clean_url (u : string) : bool :=
  match u with
  | EmptyString => true
  | String c u' =>
      negb (Ascii.eqb c ")") && negb (Ascii.eqb c JsString.dquote) &&
      negb (JsString.at_line_terminator (String c u')) && clean_url u'
  end.

(** * Properties *)

(** ** Sets kept as lists *)

Section JsSetFacts.

Lemma mem_true (x : string) (l : list string) :
  JsSet.mem x l = true ↔ x ∈ l.
Proof.
  induction l as [|y l IH]; simpl.
  - rewrite elem_of_nil. split; [discriminate | tauto].
  - rewrite orb_true_iff, IH, elem_of_cons, String.eqb_eq. tauto.
Qed.

Lemma elem_of_add (u : string) (l : list string) (x : string) :
  u ∈ JsSet.add l x ↔ u ∈ l ∨ u = x.
Proof.
  unfold JsSet.add. destruct (JsSet.mem x l) eqn:E.
  - apply mem_true in E. split; [tauto | intros [H | ->]; assumption].
  - rewrite elem_of_app, list_elem_of_singleton. tauto.
Qed.

Lemma elem_of_fold_add (u : string) (xs l : list string) :
  u ∈ fold_left JsSet.add xs l ↔ u ∈ l ∨ u ∈ xs.
Proof.
  revert l. induction xs as [|x xs IH]; intros l; simpl.
  - rewrite elem_of_nil. tauto.
  - rewrite IH, elem_of_add, elem_of_cons. tauto.
Qed.

Lemma elem_of_of_list (u : string) (xs : list string) :
  u ∈ JsSet.of_list xs ↔ u ∈ xs.
Proof.
  unfold JsSet.of_list. rewrite elem_of_fold_add, elem_of_nil. tauto.
Qed.

End JsSetFacts.

(** ** Media classification *)

Section Classification.

Lemma route_members (acc : list string * list string) (x u : string) :
  (u ∈ fst (route acc x) ↔
     u ∈ fst acc ∨ (u = x ∧ is_thumbnail_url u = false ∧ is_photo_url u = true)) ∧
  (u ∈ snd (route acc x) ↔ u ∈ snd acc ∨ (u = x ∧ is_thumbnail_url u = true)).
Proof.
  unfold route, is_thumbnail_url, is_photo_url.
  destruct (JsString.includes x "ext_tw_video_thumb") eqn:Et;
    [| destruct (JsString.includes x "pbs.twimg.com/media") eqn:Ep ];
    simpl; rewrite ?elem_of_add;
    (destruct (decide (u = x)) as [-> | Hne];
     [ rewrite ?Et, ?Ep | ]; intuition congruence).
Qed.

Lemma fold_route_members (us : list string)
    (acc : list string * list string) (u : string) :
  (u ∈ fst (fold_left route us acc) ↔
     u ∈ fst acc ∨ (u ∈ us ∧ is_thumbnail_url u = false ∧ is_photo_url u = true)) ∧
  (u ∈ snd (fold_left route us acc) ↔
     u ∈ snd acc ∨ (u ∈ us ∧ is_thumbnail_url u = true)).
Proof.
  revert acc. induction us as [|x us IH]; intros acc; simpl.
  - rewrite elem_of_nil. tauto.
  - destruct (IH (route acc x)) as [IH1 IH2].
    destruct (route_members acc x u) as [R1 R2].
    rewrite IH1, IH2, R1, R2, elem_of_cons. tauto.
Qed.

Lemma fold_classify_img (srcs : list string)
    (acc : list string * list string) :
  fold_left classify_img srcs acc =
  fold_left route (List.filter JsString.truthy srcs) acc.
Proof.
  revert acc. induction srcs as [|x srcs IH]; intros acc; simpl; [reflexivity|].
  unfold classify_img at 2. destruct (JsString.truthy x); simpl; apply IH.
Qed.

Lemma fold_classify_bg (styles : list string)
    (acc : list string * list string) :
  fold_left classify_bg styles acc =
  fold_left route
    (List.filter JsString.truthy (omap JsString.match_url styles)) acc.
Proof.
  revert acc. induction styles as [|x styles IH]; intros acc; simpl;
    [reflexivity|].
  unfold classify_bg at 2. destruct (JsString.match_url x) as [url|]; simpl.
  - destruct (JsString.truthy url); simpl; apply IH.
  - apply IH.
Qed.

(** [extractMedia] routes the collected urls one by one. *)
Lemma extractMedia_routes (root : Element) :
  (m_images (extractMedia root), m_thumbnails (extractMedia root)) =
  fold_left route (collected_urls root) ([], []).
Proof.
  unfold extractMedia, collected_urls; cbn [m_images m_thumbnails].
  rewrite fold_left_app, <- fold_classify_bg, <- fold_classify_img.
  symmetry. apply surjective_pairing.
Qed.

End Classification.

(** C10. Every url collected from the image nodes and the background-image
    nodes of an item is in the returned images exactly when it contains
    [pbs.twimg.com/media] (and is not a thumbnail), in the returned
    thumbnails exactly when it contains [ext_tw_video_thumb]; so a url with
    neither substring is in neither set. *)
Theorem extractMedia_classification (root : Element) (url : string) :
  url ∈ collected_urls root →
  (url ∈ m_images (extractMedia root) ↔
     JsString.includes url "pbs.twimg.com/media" = true ∧
     JsString.includes url "ext_tw_video_thumb" = false) ∧
  (url ∈ m_thumbnails (extractMedia root) ↔
     JsString.includes url "ext_tw_video_thumb" = true) ∧
  (JsString.includes url "pbs.twimg.com/media" = false →
   JsString.includes url "ext_tw_video_thumb" = false →
   (url ∉ m_images (extractMedia root)) ∧
   (url ∉ m_thumbnails (extractMedia root))).
Proof.
  intros Hin.
  pose proof (extractMedia_routes root) as E.
  destruct (fold_route_members (collected_urls root) ([], []) url) as [F1 F2].
  rewrite <- E in F1, F2. cbn [fst snd] in F1, F2.
  unfold is_thumbnail_url, is_photo_url in F1, F2.
  rewrite elem_of_nil in F1, F2.
  split; [|split].
  - rewrite F1. tauto.
  - rewrite F2. tauto.
  - intros Hp Ht. rewrite F1, F2.
    split; (intros [F | (_ & H)]; [destruct F |]).
    + destruct H; congruence.
    + congruence.
Qed.

(** ** Permalink resolution *)

Section Permalink.

Lemma endsWith_slash_nonempty (href id : string) :
  JsString.endsWith href ("/" ++ id) = true → JsString.truthy href = true.
Proof. destruct href; simpl; [discriminate | reflexivity]. Qed.

(** The loop with [break] returns what [find] returns, and the empty
    string when [find] has nothing. *)
Lemma first_ending_find (links : list string) (id : string) :
  first_ending links ("/" ++ id) =
  match List.find (fun href => JsString.endsWith href ("/" ++ id)) links with
  | Some href => href
  | None => EmptyString
  end.
Proof.
  induction links as [|href rest IH]; [reflexivity|].
  cbn [first_ending List.find].
  destruct (JsString.endsWith href ("/" ++ id)); [reflexivity | exact IH].
Qed.

Lemma resolvePostUrl_spec (el : Element) (id : string) :
  resolvePostUrl el id = permalink_spec el id.
Proof.
  unfold resolvePostUrl, permalink_spec.
  rewrite first_ending_find.
  destruct (List.find _ (el_statusLinks el)) as [href|] eqn:Hfind.
  - apply find_some in Hfind as [_ Hend].
    rewrite (endsWith_slash_nonempty _ _ Hend). reflexivity.
  - cbn [JsString.truthy String.eqb negb].
    destruct (el_time el) as [t|]; [destruct (time_closestLinkHref t)|];
      destruct (el_statusLinks el); reflexivity.
Qed.

End Permalink.

(** C8. The permalink of a record is the one the three-stage chain names: a
    status link ending in a slash and the id when there is one; else the link
    around the timestamp when its url contains the status path of the id;
    else the first status link; else the empty string.  Resolution never
    aborts the record: an item with a timestamp node always yields a record,
    with that permalink, and only the missing timestamp node yields none. *)
Theorem permalink_fallback_chain (mediaMap0 : gmap string (list string))
    (el : Element) (id : string) :
  resolvePostUrl el id = permalink_spec el id ∧
  match el_time el with
  | Some _ =>
      ∃ t, extractTweetData mediaMap0 el id = Some t ∧
           postUrl t = permalink_spec el id
  | None => extractTweetData mediaMap0 el id = None
  end.
Proof.
  split; [apply resolvePostUrl_spec|].
  unfold extractTweetData. destruct (el_time el) as [timeEl|]; [|reflexivity].
  eexists. split; [reflexivity|]. cbn [postUrl]. apply resolvePostUrl_spec.
Qed.

(** ** The scroll driver *)

Local Open Scope list_scope.

Section ScrollDriver.

Lemma scrolls_snoc (tr : list Effect) (e : Effect) :
  scrolls (tr ++ [e]) =
  scrolls tr ++ match e with ScrollBy dy => [dy] | _ => [] end.
Proof. unfold scrolls. rewrite omap_app. destruct e; reflexivity. Qed.

Lemma tick_scroll (ok : bool) (currentHeight : Z) (w : World) :
  cfg (tick ok currentHeight w) = cfg w ∧
  previousHeight (tick ok currentHeight w) = currentHeight ∧
  stuckCount (tick ok currentHeight w) = fst (tick_outcome currentHeight w) ∧
  scrolls (trace (tick ok currentHeight w)) =
    scrolls (trace w) ++ snd (tick_outcome currentHeight w).
Proof.
  destruct w as [c ts ps bi sc ph ht ha ta oc mm tr].
unfold tick, tick_outcome, downloadTweetsAsJson.
cbn -[Z.eqb Z.leb Nat.leb Z.mul Z.of_nat JsNumber.mul].
destruct (currentHeight =? ph);
  [destruct (3 <=? S sc)%nat|];
  cbn -[Z.eqb Z.leb Nat.leb Z.mul Z.of_nat JsNumber.mul];
  destruct (batchSize c <=? Z.of_nat (length ts));
  try destruct ok; cbn -[Z.eqb Z.leb Nat.leb Z.mul Z.of_nat JsNumber.mul];
  rewrite ?scrolls_snoc, ?app_nil_r, <- ?app_assoc; auto.
Qed.

(** A product of magnitude up to 2^53 is a double: nothing is rounded. *)
Lemma mul_exact (a b : Z) :
  Z.abs (a * b) <= 2 ^ 53 → JsNumber.mul a b = a * b.
Proof.
  intros H. unfold JsNumber.mul, JsNumber.round.
  apply Z.leb_le in H. rewrite H. reflexivity.
Qed.

End ScrollDriver.

(** C7. From a stall counter of zero (its value at the start, after any
    tick that saw the height change and after any escalation), three
    consecutive ticks that each read the height of the tick before them
    issue the plain scroll three times and, on the third, one more scroll of
    three times the step, and leave the counter at zero; the first two leave
    it at one and two.  The step is a number whose triple is computed
    without rounding, that is of magnitude up to 2^53.  A tick that reads a
    different height resets the counter at once and scrolls by the plain
    step only.  Each tick compares the height it reads before it scrolls
    with the height the previous tick read before its own scroll. *)
Theorem stuck_detection (ok1 ok2 ok3 : bool) (h : Z) (w : World) :
  stuckCount w = 0%nat →
  previousHeight w = h →
  Z.abs (scrollStep (cfg w)) * 3 <= 2 ^ 53 →
  let step := scrollStep (cfg w) in
  let w1 := tick ok1 h w in
  let w2 := tick ok2 h w1 in
  let w3 := tick ok3 h w2 in
  (stuckCount w1 = 1%nat ∧ scrolls (trace w1) = scrolls (trace w) ++ [step]) ∧
  (stuckCount w2 = 2%nat ∧ scrolls (trace w2) = scrolls (trace w1) ++ [step]) ∧
  (stuckCount w3 = 0%nat ∧
   scrolls (trace w3) = scrolls (trace w2) ++ [step; step * 3]) ∧
  (∀ ok h' w', h' ≠ previousHeight w' →
     stuckCount (tick ok h' w') = 0%nat ∧
     scrolls (trace (tick ok h' w')) =
       scrolls (trace w') ++ [scrollStep (cfg w')]) ∧
  (∀ ok h' w', previousHeight (tick ok h' w') = h').
Proof.
  intros Hc Hh Hstep step w1 w2 w3.
  assert (Hmul : JsNumber.mul step 3 = step * 3).
  { apply mul_exact. rewrite Z.abs_mul. exact Hstep. }
  destruct (tick_scroll ok1 h w) as (C1 & P1 & S1 & T1).
  destruct (tick_scroll ok2 h w1) as (C2 & P2 & S2 & T2).
  destruct (tick_scroll ok3 h w2) as (C3 & P3 & S3 & T3).
  fold w1 in C1, P1, S1, T1, C2, P2, S2, T2.
  fold w2 in C2, P2, S2, T2, C3, P3, S3, T3.
  fold w3 in C3, P3, S3, T3.
  unfold tick_outcome in S1, T1. rewrite Hh, Hc, Z.eqb_refl in S1, T1.
  cbn -[JsNumber.mul] in S1, T1.
  unfold tick_outcome in S2, T2. rewrite P1, S1, C1, Z.eqb_refl in S2, T2.
  cbn -[JsNumber.mul] in S2, T2.
  unfold tick_outcome in S3, T3. rewrite P2, S2, C2, C1, Z.eqb_refl in S3, T3.
  cbn -[JsNumber.mul] in S3, T3. fold step in T3. rewrite Hmul in T3.
  repeat split; try assumption.
  - destruct (tick_scroll ok h' w') as (_ & _ & S & _). rewrite S.
    unfold tick_outcome. apply Z.eqb_neq in H. rewrite H. reflexivity.
  - destruct (tick_scroll ok h' w') as (_ & _ & _ & T). rewrite T.
    unfold tick_outcome. apply Z.eqb_neq in H. rewrite H. reflexivity.
  - intros. apply tick_scroll.
Qed.

Lemma stuck_detection_witness :
  stuckCount Examples.stalled_world = 0%nat ∧
  previousHeight Examples.stalled_world = 4000 ∧
  Z.abs (scrollStep (cfg Examples.stalled_world)) * 3 <= 2 ^ 53 ∧
  scrolls (trace (tick true 4000 (tick true 4000
                   (tick true 4000 Examples.stalled_world))))
  = [800; 800; 800; 2400].
Proof.
  assert (Hstep : Z.abs (scrollStep (cfg Examples.stalled_world)) * 3
                  <= 2 ^ 53) by (vm_compute; discriminate).
  split; [reflexivity | split; [reflexivity | split; [exact Hstep|]]].
  destruct (stuck_detection true true true 4000 Examples.stalled_world
              eq_refl eq_refl Hstep)
    as ((_ & T1) & (_ & T2) & (_ & T3) & _).
  rewrite T3, T2, T1. reflexivity.
Defined.

(** ** Export and teardown *)

Section Teardown.

Lemma downloadTweetsAsJson_trace (ok : bool) (batch : list Tweet) (w : World) :
  trace (downloadTweetsAsJson ok batch w) = trace w ++ [export_effect ok batch].
Proof. destruct ok; reflexivity. Qed.

Lemma cleanup_trace (ok : bool) (w : World) :
  trace (cleanup ok w) =
  trace w ++ final_flush ok w ++ [ClearInterval; Disconnect; HudRemove; LogStopped].
Proof.
  unfold cleanup, final_flush.
  destruct (tweets w) as [|t ts]; cbn.
  - rewrite <- !app_assoc. reflexivity.
  - rewrite downloadTweetsAsJson_trace, <- !app_assoc. reflexivity.
Qed.

(** [cleanup] touches the timer, the observer, the HUD and the trace only. *)
Lemma cleanup_frame (ok : bool) (w : World) :
  cfg (cleanup ok w) = cfg w ∧
  tweets (cleanup ok w) = tweets w ∧
  processedTweetIds (cleanup ok w) = processedTweetIds w ∧
  mediaMap (cleanup ok w) = mediaMap w ∧
  batchIndex (cleanup ok w) = batchIndex w.
Proof.
  unfold cleanup, downloadTweetsAsJson.
  destruct (tweets w) eqn:E, ok; cbn; rewrite ?E; auto.
Qed.

Lemma cleanup_stops (ok : bool) (w : World) :
  timerActive (cleanup ok w) = false ∧ observerConnected (cleanup ok w) = false.
Proof. split; reflexivity. Qed.

Lemma tick_flush (ok : bool) (h : Z) (w : World) :
  batchSize (cfg w) <= Z.of_nat (length (tweets w)) →
  tweets (tick ok h w) = [] ∧
  batchIndex (tick ok h w) = S (batchIndex w) ∧
  last (trace (tick ok h w)) = Some (export_effect ok (tweets w)).
Proof.
  intros Hfull. apply Z.leb_le in Hfull.
  destruct w as [c ts ps bi sc ph ht ha ta oc mm tr].
  unfold tick. cbn -[Z.eqb Z.leb Nat.leb Z.mul Z.of_nat JsNumber.mul] in *.
  destruct (h =? ph); [destruct (3 <=? S sc)%nat|];
    cbn -[Z.eqb Z.leb Nat.leb Z.mul Z.of_nat JsNumber.mul]; rewrite Hfull;
    cbn -[Z.eqb Z.leb Nat.leb Z.mul Z.of_nat JsNumber.mul];
    rewrite downloadTweetsAsJson_trace, last_snoc;
    destruct ok; auto.
Qed.

End Teardown.

(** C1, as the code has it.  A failed export is caught and logged inside
    [downloadTweetsAsJson] and is not reported to its caller.  On the
    threshold flush of a scroll tick the pending batch is then emptied and
    [batchIndex] incremented just as after a successful export.  On the
    flush of [cleanup], which exports whatever is pending, below the
    threshold too, the failure is logged and the pending batch stays as it
    was. *)
Theorem failed_export_outcome (h : Z) (w : World) :
  (batchSize (cfg w) <= Z.of_nat (length (tweets w)) →
   last (trace (tick false h w)) = Some (ExportError (tweets w)) ∧
   tweets (tick false h w) = [] ∧
   batchIndex (tick false h w) = S (batchIndex w)) ∧
  trace (cleanup false w) =
    trace w ++ final_flush false w ++
    [ClearInterval; Disconnect; HudRemove; LogStopped] ∧
  tweets (cleanup false w) = tweets w ∧
  (tweets w ≠ [] → ExportError (tweets w) ∈ trace (cleanup false w)).
Proof.
  split; [|split; [|split]].
  - intros Hfull. destruct (tick_flush false h w Hfull) as (T & B & L).
    auto.
  - apply cleanup_trace.
  - apply cleanup_frame.
  - intros Hne. rewrite cleanup_trace. unfold final_flush.
    destruct (tweets w) as [|t ts]; [congruence|].
    apply elem_of_app. right. left.
Qed.

Lemma failed_export_outcome_witness :
  batchSize (cfg Examples.full_world)
    <= Z.of_nat (length (tweets Examples.full_world)) ∧
  tweets (tick false 4000 Examples.full_world) = [] ∧
  tweets (cleanup false (set_tweets [Examples.t7] Examples.stalled_world))
    = [Examples.t7] ∧
  ExportError [Examples.t7]
    ∈ trace (cleanup false (set_tweets [Examples.t7] Examples.stalled_world)).
Proof.
  assert (H : batchSize (cfg Examples.full_world)
                <= Z.of_nat (length (tweets Examples.full_world)))
    by (vm_compute; discriminate).
  split; [exact H|].
  destruct (failed_export_outcome 4000 Examples.full_world) as (T & _).
  destruct (T H) as (_ & T0 & _).
  split; [exact T0|].
  destruct (failed_export_outcome 4000
              (set_tweets [Examples.t7] Examples.stalled_world))
    as (_ & _ & C & E).
  split; [exact C|]. apply E. discriminate.
Defined.

(** C1 fails as stated: the one pending record is in the batch before a tick
    whose export fails and is gone after it. *)
Lemma failed_tick_flush_drops_records :
  batchSize (cfg Examples.full_world)
    <= Z.of_nat (length (tweets Examples.full_world)) ∧
  ExportError [Examples.t7] ∈ trace (tick false 4000 Examples.full_world) ∧
  Examples.t7 ∈ tweets Examples.full_world ∧
  ¬ (Examples.t7 ∈ tweets (tick false 4000 Examples.full_world)).
Proof.
  split; [vm_compute; discriminate|].
  split; [vm_compute; apply elem_of_cons; right; apply elem_of_cons; left; reflexivity|].
  split; [apply elem_of_cons; left; reflexivity|].
  vm_compute. apply not_elem_of_nil.
Qed.

(** C3, as the code has it.  [cleanup] flushes the pending batch first, when
    it is not empty, then cancels the scroll timer, then disconnects the
    observer, then removes the HUD.  It always returns, and a second call
    finds and leaves the timer and the observer stopped. *)
Theorem cleanup_sequence (ok ok' : bool) (w : World) :
  trace (cleanup ok w) =
    trace w ++ final_flush ok w ++
    [ClearInterval; Disconnect; HudRemove; LogStopped] ∧
  timerActive (cleanup ok w) = false ∧
  observerConnected (cleanup ok w) = false ∧
  timerActive (cleanup ok' (cleanup ok w)) = false ∧
  observerConnected (cleanup ok' (cleanup ok w)) = false.
Proof.
  split; [apply cleanup_trace|]. repeat split.
Qed.

(** C3 fails as stated: on a scraper with one pending record the flush comes
    before the timer is cancelled and the observer disconnected, and a second
    [cleanup] exports the same batch once more. *)
Lemma cleanup_flushes_first_and_again :
  position is_flush (trace (cleanup true Examples.full_world)) = Some 0%nat ∧
  position is_clear_interval (trace (cleanup true Examples.full_world))
    = Some 1%nat ∧
  position is_disconnect (trace (cleanup true Examples.full_world))
    = Some 2%nat ∧
  flush_attempts (trace (cleanup true Examples.full_world)) = [[Examples.t7]] ∧
  flush_attempts (trace (cleanup true (cleanup true Examples.full_world)))
    = [[Examples.t7]; [Examples.t7]].
Proof. repeat split. Qed.

(** ** The reconciliation loop *)

Section Reconciliation.

Lemma captured_ids_snoc (tr : list Effect) (e : Effect) :
  captured_ids (tr ++ [e]) =
  captured_ids tr ++ match e with LogCaptured tid _ => [tid] | _ => [] end.
Proof. unfold captured_ids. rewrite omap_app. destruct e; reflexivity. Qed.

Lemma flush_attempts_snoc (tr : list Effect) (e : Effect) :
  flush_attempts (tr ++ [e]) =
  flush_attempts tr ++
  match e with Exported b | ExportError b => [b] | _ => [] end.
Proof. unfold flush_attempts. rewrite omap_app. destruct e; reflexivity. Qed.

Lemma flush_attempts_app (tr tr' : list Effect) :
  flush_attempts (tr ++ tr') = flush_attempts tr ++ flush_attempts tr'.
Proof. apply omap_app. Qed.

Lemma captured_ids_app (tr tr' : list Effect) :
  captured_ids (tr ++ tr') = captured_ids tr ++ captured_ids tr'.
Proof. apply omap_app. Qed.

Lemma flush_attempts_final (ok : bool) (w : World) :
  flush_attempts (final_flush ok w) =
  match tweets w with [] => [] | _ :: _ => [tweets w] end.
Proof. unfold final_flush. destruct (tweets w), ok; reflexivity. Qed.

Lemma extractTweetData_id (m : gmap string (list string)) (el : Element)
    (tid : string) (t : Tweet) :
  extractTweetData m el tid = Some t → tweetId t = tid.
Proof.
  unfold extractTweetData. destruct (el_time el); [|discriminate].
  intros [= <-]. reflexivity.
Qed.

(** A property kept by the three things the loop body can do is kept by the
    loop. *)
Lemma updateTweets_loop_keeps (Q : World → Prop) (seeded ok : bool) :
  (∀ w tid media, Q w → tid ∈ processedTweetIds w →
     Q (set_tweets (update_first tid (late_media media) (tweets w)) w)) →
  (∀ w tid, Q w → tid ∉ processedTweetIds w → is_stop w tid = true →
     Q (cleanup ok (emit (LogReachedStop tid) w))) →
  (∀ w el tid t, Q w → tid ∉ processedTweetIds w →
     extractTweetData (mediaMap w) el tid = Some t → Q (capture tid t w)) →
  ∀ els w, Q w → Q (updateTweets_loop seeded ok els w).
Proof.
  intros Hlate Hstop Hcap els.
  induction els as [|el rest IH]; intros w HQ; [exact HQ|].
  cbn [updateTweets_loop].
  destruct (extractTweetId el) as [tid|]; [|auto].
  destruct (decide (tid ∈ processedTweetIds w)) as [Hin|Hout].
  - apply IH. destruct seeded; auto.
  - destruct (is_stop w tid) eqn:Hs; [auto|].
    destruct (extractTweetData (mediaMap w) el tid) as [t|] eqn:Hx; eauto.
Qed.

Lemma late_media_id (media : Media) (t : Tweet) :
  tweetId (late_media media t) = tweetId t.
Proof.
  destruct t as [i a x d p n ims vs], media as [mi mv mt].
  destruct mi, ims, mv, vs; reflexivity.
Qed.

Lemma update_first_ids (tid : string) (f : Tweet → Tweet) (l : list Tweet) :
  (∀ t, tweetId (f t) = tweetId t) →
  map tweetId (update_first tid f l) = map tweetId l.
Proof.
  intros Hf. induction l as [|t l IH]; [reflexivity|].
  cbn [update_first]. destruct (String.eqb (tweetId t) tid); cbn [map].
  - rewrite Hf. reflexivity.
  - rewrite IH. reflexivity.
Qed.

(** The loop leaves the configuration and the media table alone and only
    adds to the processed set. *)
Lemma updateTweets_loop_frame (seeded ok : bool) (els : list Element)
    (w : World) :
  cfg (updateTweets_loop seeded ok els w) = cfg w ∧
  mediaMap (updateTweets_loop seeded ok els w) = mediaMap w ∧
  processedTweetIds w ⊆ processedTweetIds (updateTweets_loop seeded ok els w).
Proof.
  apply (updateTweets_loop_keeps
           (fun w' => cfg w' = cfg w ∧ mediaMap w' = mediaMap w ∧
                      processedTweetIds w ⊆ processedTweetIds w')).
  - intros w' tid media H _. exact H.
  - intros w' tid (Hc & Hm & Hp) _ _.
    destruct (cleanup_frame ok (emit (LogReachedStop tid) w'))
      as (C & _ & P & M & _).
    rewrite C, M, P. auto.
  - intros w' el tid t (Hc & Hm & Hp) _ _. cbn. repeat split; auto.
    set_solver.
  - auto.
Qed.

End Reconciliation.

(** ** The session invariant *)

Section Invariant.

(** Steps that capture nothing: the pending ids stay or the batch is
    emptied, and whatever is exported is the pending batch. *)
Lemma harvest_inv_quiet (w w' : World) :
  Harvest_inv w →
  skipTweetIds (cfg w') = skipTweetIds (cfg w) →
  processedTweetIds w' = processedTweetIds w →
  captured_ids (trace w') = captured_ids (trace w) →
  (map tweetId (tweets w') = map tweetId (tweets w) ∨ tweets w' = []) →
  (∀ b, b ∈ flush_attempts (trace w') →
        b ∈ flush_attempts (trace w) ∨ b = tweets w) →
  Harvest_inv w'.
Proof.
  intros [N P T TN F S] Hs Hp Hc Ht Hf.
  constructor; rewrite ?Hs, ?Hp, ?Hc; try assumption.
  - intros t Hin. destruct Ht as [Ht | Ht]; [|rewrite Ht in Hin; inversion Hin].
    assert (Hid : tweetId t ∈ map tweetId (tweets w)).
    { rewrite <- Ht. apply list_elem_of_fmap. eauto. }
    apply list_elem_of_fmap in Hid as (t0 & -> & Hin0). auto.
  - destruct Ht as [-> | ->]; [assumption | constructor].
  - intros b t Hb Hin. destruct (Hf b Hb) as [Hold | ->]; eauto.
Qed.

Lemma harvest_inv_capture (w : World) (tid : string) (t : Tweet) :
  Harvest_inv w → tid ∉ processedTweetIds w → tweetId t = tid →
  Harvest_inv (capture tid t w).
Proof.
  intros [N P T TN F S] Hout Hid.
  assert (Hfresh : tid ∉ captured_ids (trace w)) by (intros H; auto).
  constructor; cbn; rewrite ?captured_ids_snoc, ?flush_attempts_snoc, ?app_nil_r.
  - apply NoDup_app. split; [assumption|]. split; [|apply NoDup_singleton].
    intros x Hx Hx'. apply list_elem_of_singleton in Hx'. congruence.
  - intros id Hin. apply elem_of_app in Hin as [Hin | Hin].
    + apply elem_of_union. left. auto.
    + apply elem_of_union. right. apply list_elem_of_singleton in Hin.
      apply elem_of_singleton. exact Hin.
  - intros t' Hin. apply elem_of_app. apply elem_of_app in Hin as [Hin | Hin].
    + left. auto.
    + right. apply list_elem_of_singleton in Hin. subst t'. rewrite Hid.
      apply list_elem_of_singleton. reflexivity.
  - rewrite map_app. apply NoDup_app. split; [assumption|].
    split; [|apply NoDup_singleton].
    intros x Hx Hx'. apply list_elem_of_singleton in Hx'. cbn in Hx'.
    apply list_elem_of_fmap in Hx as (t0 & -> & Hin0).
    apply Hfresh. rewrite <- Hid, <- Hx'. auto.
  - intros b t' Hb Hin. apply elem_of_app. left. eauto.
  - intros id Hin. destruct (S id Hin) as [S1 S2]. split.
    + apply elem_of_union. left. exact S1.
    + intros H. apply elem_of_app in H as [H | H]; [auto|].
      apply list_elem_of_singleton in H. congruence.
Qed.

Lemma cleanup_quiet (ok : bool) (w : World) :
  captured_ids (trace (cleanup ok w)) = captured_ids (trace w) ∧
  flush_attempts (trace (cleanup ok w)) =
    flush_attempts (trace w) ++
    match tweets w with [] => [] | _ :: _ => [tweets w] end.
Proof.
  rewrite cleanup_trace. split.
  - rewrite !captured_ids_app. unfold final_flush.
    destruct (tweets w), ok; cbn; rewrite ?app_nil_r; reflexivity.
  - rewrite !flush_attempts_app, flush_attempts_final. cbn.
    rewrite app_nil_r. reflexivity.
Qed.

Lemma harvest_inv_cleanup (ok : bool) (w : World) :
  Harvest_inv w → Harvest_inv (cleanup ok w).
Proof.
  intros H. destruct (cleanup_frame ok w) as (C & T & P & _).
  destruct (cleanup_quiet ok w) as (K & F).
  apply (harvest_inv_quiet w); rewrite ?C, ?T, ?P, ?K; auto.
  intros b. rewrite F, elem_of_app.
  destruct (tweets w); [rewrite elem_of_nil | rewrite list_elem_of_singleton];
    tauto.
Qed.

Lemma harvest_inv_emit_log (w : World) (e : Effect) :
  captured_ids [e] = [] → flush_attempts [e] = [] →
  Harvest_inv w → Harvest_inv (emit e w).
Proof.
  intros Hc Hf H. apply (harvest_inv_quiet w); cbn; auto.
  - rewrite captured_ids_app, Hc, app_nil_r. reflexivity.
  - intros b. rewrite flush_attempts_app, Hf, app_nil_r. auto.
Qed.

Lemma harvest_inv_loop (seeded ok : bool) (els : list Element) (w : World) :
  Harvest_inv w → Harvest_inv (updateTweets_loop seeded ok els w).
Proof.
  apply updateTweets_loop_keeps.
  - intros w' tid media H _. apply (harvest_inv_quiet w'); cbn; auto.
    left. apply update_first_ids, late_media_id.
  - intros w' tid H _ _. apply harvest_inv_cleanup.
    apply harvest_inv_emit_log; auto.
  - intros w' el tid t H Hout Hx.
    apply harvest_inv_capture; eauto using extractTweetData_id.
Qed.

Lemma harvest_inv_tick (ok : bool) (h : Z) (w : World) :
  Harvest_inv w → Harvest_inv (tick ok h w).
Proof.
  intros H. apply (harvest_inv_quiet w); auto;
    destruct w as [c ts ps bi sc ph ht ha ta oc mm tr];
    unfold tick, downloadTweetsAsJson;
    cbn -[Z.eqb Z.leb Nat.leb Z.mul Z.of_nat JsNumber.mul];
    (destruct (h =? ph); [destruct (3 <=? S sc)%nat|]);
    cbn -[Z.eqb Z.leb Nat.leb Z.mul Z.of_nat JsNumber.mul];
    destruct (batchSize c <=? Z.of_nat (length ts));
    try destruct ok; cbn -[Z.eqb Z.leb Nat.leb Z.mul Z.of_nat JsNumber.mul];
    rewrite ?captured_ids_snoc, ?flush_attempts_snoc, ?app_nil_r;
    auto;
    intros b Hb; rewrite ?elem_of_app, ?list_elem_of_singleton in Hb; tauto.
Qed.

Lemma harvest_inv_request (url : string) (w : World) :
  Harvest_inv w → Harvest_inv (on_request url w).
Proof.
  intros H. unfold on_request, stash.
  destruct (JsString.includes url "video.twimg.com"); [|exact H].
  destruct (JsString.match_id "ext_tw_video/" url); [|exact H].
  apply (harvest_inv_quiet w); cbn; auto.
  - rewrite captured_ids_snoc, app_nil_r. reflexivity.
  - intros b. rewrite flush_attempts_snoc, app_nil_r. auto.
Qed.

Lemma harvest_inv_callback (arts : list (Element * bool)) (w : World) :
  Harvest_inv w → Harvest_inv (observer_callback arts w).
Proof.
  unfold observer_callback. revert w.
  induction arts as [|[art ok] arts IH]; intros w H; [exact H|].
  cbn [fold_left]. apply IH. apply harvest_inv_loop, H.
Qed.

Lemma harvest_inv_step (w : World) (e : Event) :
  Harvest_inv w → Harvest_inv (step w e).
Proof.
  intros H. destruct e as [url | h ok | arts | ok]; cbn [step].
  - apply harvest_inv_request, H.
  - destruct (timerActive w); [apply harvest_inv_tick, H | exact H].
  - destruct (observerConnected w); [apply harvest_inv_callback, H | exact H].
  - apply harvest_inv_cleanup, H.
Qed.

Lemma harvest_inv_run (events : list Event) (w : World) :
  Harvest_inv w → Harvest_inv (run w events).
Proof.
  unfold run. revert w.
  induction events as [|e events IH]; intros w H; [exact H|].
  cbn [fold_left]. apply IH, harvest_inv_step, H.
Qed.

Lemma elem_of_fold_union (id : string) (l : list string) (acc : gset string) :
  id ∈ fold_left (fun acc tid => acc ∪ {[tid]}) l acc ↔ id ∈ acc ∨ id ∈ l.
Proof.
  revert acc. induction l as [|x l IH]; intros acc; cbn [fold_left].
  - rewrite elem_of_nil. tauto.
  - rewrite IH, elem_of_cons, elem_of_union, elem_of_singleton. tauto.
Qed.

Lemma harvest_inv_new (options : Options) (m0 : gmap string (list string))
    (document : list Element) (ok : bool) :
  Harvest_inv (new_TweetScraper options m0 document ok).
Proof.
  unfold new_TweetScraper, updateTweets. apply harvest_inv_loop.
  constructor; cbn.
  - constructor.
  - intros id H. inversion H.
  - intros t H. inversion H.
  - constructor.
  - intros b t H. inversion H.
  - intros id H. split; [|apply not_elem_of_nil].
    apply elem_of_fold_union. right. exact H.
Qed.

Lemma harvest_inv_session (options : Options) (m0 : gmap string (list string))
    (document : list Element) (ok : bool) (events : list Event) :
  Harvest_inv (session options m0 document ok events).
Proof. apply harvest_inv_run, harvest_inv_new. Qed.

End Invariant.

(** ** What each event leaves alone *)

Section Frames.

Lemma stash_frame (url : string) (w : World) :
  cfg (stash url w) = cfg w ∧
  tweets (stash url w) = tweets w ∧
  processedTweetIds (stash url w) = processedTweetIds w.
Proof.
  unfold stash. destruct (JsString.match_id "ext_tw_video/" url); auto.
Qed.

Lemma on_request_frame (url : string) (w : World) :
  cfg (on_request url w) = cfg w ∧
  tweets (on_request url w) = tweets w ∧
  processedTweetIds (on_request url w) = processedTweetIds w.
Proof.
  unfold on_request.
  destruct (JsString.includes url "video.twimg.com");
    [apply stash_frame | auto].
Qed.

Lemma tick_frame (ok : bool) (h : Z) (w : World) :
  cfg (tick ok h w) = cfg w ∧ mediaMap (tick ok h w) = mediaMap w.
Proof.
  split; [apply tick_scroll|].
  destruct w as [c ts ps bi sc ph ht ha ta oc mm tr].
  unfold tick, downloadTweetsAsJson.
  cbn -[Z.eqb Z.leb Nat.leb Z.mul Z.of_nat JsNumber.mul].
  destruct (h =? ph); [destruct (3 <=? S sc)%nat|];
    cbn -[Z.eqb Z.leb Nat.leb Z.mul Z.of_nat JsNumber.mul];
    destruct (batchSize c <=? Z.of_nat (length ts));
    try destruct ok; reflexivity.
Qed.

Lemma observer_callback_frame (arts : list (Element * bool)) (w : World) :
  cfg (observer_callback arts w) = cfg w ∧
  mediaMap (observer_callback arts w) = mediaMap w.
Proof.
  unfold observer_callback. revert w.
  induction arts as [|[art ok] arts IH]; intros w; [auto|].
  cbn [fold_left]. destruct (IH (updateTweets ok (Some [art]) [] w)) as [C M].
  rewrite C, M. unfold updateTweets.
  split; apply updateTweets_loop_frame.
Qed.

Lemma step_cfg (w : World) (e : Event) : cfg (step w e) = cfg w.
Proof.
  destruct e as [url | h ok | arts | ok]; cbn [step].
  - apply on_request_frame.
  - destruct (timerActive w); [apply tick_frame | reflexivity].
  - destruct (observerConnected w);
      [apply observer_callback_frame | reflexivity].
  - apply cleanup_frame.
Qed.

Lemma run_cfg (events : list Event) (w : World) : cfg (run w events) = cfg w.
Proof.
  unfold run. revert w.
  induction events as [|e events IH]; intros w; [reflexivity|].
  cbn [fold_left]. rewrite IH. apply step_cfg.
Qed.

Lemma new_TweetScraper_cfg (options : Options)
    (m0 : gmap string (list string)) (document : list Element) (ok : bool) :
  cfg (new_TweetScraper options m0 document ok) =
  mkConfig (number_or (o_scrollIntervalMs options) 1000)
           (number_or (o_scrollStep options) 800)
           (number_or (o_batchSize options) 100)
           (string_or_null (o_stopAtTweetId options))
           (JsSet.of_list (default [] (o_skipTweetIds options))).
Proof.
  unfold new_TweetScraper, updateTweets.
  match goal with
  | |- cfg (updateTweets_loop ?a ?b ?c ?d) = _ =>
      destruct (updateTweets_loop_frame a b c d) as (C & _)
  end.
  rewrite C. reflexivity.
Qed.

End Frames.

(** ** Records are created once *)

Section Dedup.

Lemma same_but_media_refl (t : Tweet) : same_but_media t t.
Proof. destruct t. reflexivity. Qed.

Lemma same_but_media_trans (t1 t2 t3 : Tweet) :
  same_but_media t1 t2 → same_but_media t2 t3 → same_but_media t1 t3.
Proof.
  unfold same_but_media. intros H12 H23. rewrite H23 at 1. rewrite H12.
  reflexivity.
Qed.

Lemma same_but_media_id (t t' : Tweet) :
  same_but_media t t' → tweetId t' = tweetId t.
Proof. unfold same_but_media. intros ->. reflexivity. Qed.

Lemma late_media_same (media : Media) (t : Tweet) :
  same_but_media t (late_media media t).
Proof.
  destruct t as [i a x d p n ims vs], media as [mi mv mt].
  destruct mi, ims, mv, vs; reflexivity.
Qed.

Lemma Forall2_same_refl (l : list Tweet) : Forall2 same_but_media l l.
Proof.
  induction l as [|t l IH]; constructor;
    [apply same_but_media_refl | exact IH].
Qed.

Lemma update_first_same (tid : string) (media : Media) (l : list Tweet) :
  Forall2 same_but_media l (update_first tid (late_media media) l).
Proof.
  induction l as [|t l IH]; [constructor|].
  cbn [update_first]. destruct (String.eqb (tweetId t) tid).
  - constructor; [apply late_media_same | apply Forall2_same_refl].
  - constructor; [apply same_but_media_refl | exact IH].
Qed.

Lemma Forall2_same_trans (l1 l2 l3 : list Tweet) :
  Forall2 same_but_media l1 l2 → Forall2 same_but_media l2 l3 →
  Forall2 same_but_media l1 l3.
Proof.
  intros H12. revert l3. induction H12 as [|t1 t2 l1 l2 H _ IH]; intros l3 H23.
  - inversion H23. constructor.
  - inversion H23 as [|? t3 ? l3' H' Hrest]; subst.
    constructor; [eapply same_but_media_trans; eassumption | auto].
Qed.

Lemma Forall2_same_ids (l l' : list Tweet) :
  Forall2 same_but_media l l' → map tweetId l' = map tweetId l.
Proof.
  induction 1 as [|t t' l l' H _ IH]; [reflexivity|].
  cbn [map]. rewrite IH, (same_but_media_id _ _ H). reflexivity.
Qed.

(** What one run of the loop does to the pending batch: the records it
    found are still there in place, changed at most in their media, and the
    records behind them are the ones it captured, none with an id that was
    processed before. *)
Lemma updateTweets_loop_appends (seeded ok : bool) (els : list Element)
    (w : World) :
  let w' := updateTweets_loop seeded ok els w in
  ∃ old' new,
    tweets w' = old' ++ new ∧
    Forall2 same_but_media (tweets w) old' ∧
    Forall (fun id => id ∉ processedTweetIds w) (map tweetId new) ∧
    captured_ids (trace w') = captured_ids (trace w) ++ map tweetId new.
Proof.
  cbv zeta.
  cut (processedTweetIds w ⊆
         processedTweetIds (updateTweets_loop seeded ok els w) ∧
       ∃ old' new,
         tweets (updateTweets_loop seeded ok els w) = old' ++ new ∧
         Forall2 same_but_media (tweets w) old' ∧
         Forall (fun id => id ∉ processedTweetIds w) (map tweetId new) ∧
         captured_ids (trace (updateTweets_loop seeded ok els w)) =
           captured_ids (trace w) ++ map tweetId new); [tauto|].
  apply (updateTweets_loop_keeps
    (fun w' =>
       processedTweetIds w ⊆ processedTweetIds w' ∧
       ∃ old' new,
         tweets w' = old' ++ new ∧
         Forall2 same_but_media (tweets w) old' ∧
         Forall (fun id => id ∉ processedTweetIds w) (map tweetId new) ∧
         captured_ids (trace w') = captured_ids (trace w) ++ map tweetId new)).
  - intros w' tid media (Hsub & old' & new & Ht & Hold & Hnew & Hcap) _.
    split; [exact Hsub|]. cbn.
    pose proof (update_first_same tid media (tweets w')) as Hup.
    rewrite Ht in Hup at 1.
    apply Forall2_app_inv_l in Hup as (k1 & k2 & Hk1 & Hk2 & Hk).
    exists k1, k2. split; [exact Hk|].
    split; [eapply Forall2_same_trans; eassumption|].
    rewrite (Forall2_same_ids _ _ Hk2). auto.
  - intros w' tid (Hsub & old' & new & Ht & Hold & Hnew & Hcap) _ _.
    destruct (cleanup_frame ok (emit (LogReachedStop tid) w'))
      as (_ & T & P & _).
    destruct (cleanup_quiet ok (emit (LogReachedStop tid) w')) as (K & _).
    rewrite T, P, K. cbn. rewrite captured_ids_snoc, app_nil_r.
    split; [exact Hsub|]. exists old', new. auto.
  - intros w' el tid t (Hsub & old' & new & Ht & Hold & Hnew & Hcap) Hout Hx.
    apply extractTweetData_id in Hx. cbn.
    split; [set_solver|].
    exists old', (new ++ [t]).
    rewrite Ht, <- app_assoc, map_app, captured_ids_snoc, Hcap, <- app_assoc.
    cbn [map]. rewrite Hx.
    repeat split; auto.
    apply Forall_app. split; [exact Hnew|].
    constructor; [|constructor]. intros Hin. apply Hout, Hsub, Hin.
  - split; [reflexivity|]. exists (tweets w), [].
    rewrite !app_nil_r. repeat split; auto.
    apply Forall2_same_refl.
Qed.

End Dedup.

(** C4. Over a whole session no id is captured twice, every captured id is
    in the processed set, and the pending records have distinct ids.  And
    for one call of [updateTweets], from a full scan or from a mutation: an
    id that is processed before the call stays processed, the records pending
    before the call are still there in place and differ at most in their
    images and videos, and no record appended by the call carries that id. *)
Theorem one_record_per_identifier :
  (∀ options mediaMap0 document ok events,
     let w := session options mediaMap0 document ok events in
     NoDup (captured_ids (trace w)) ∧
     NoDup (map tweetId (tweets w)) ∧
     (∀ id, id ∈ captured_ids (trace w) → id ∈ processedTweetIds w)) ∧
  (∀ ok seedEls document w tid,
     tid ∈ processedTweetIds w →
     let w' := updateTweets ok seedEls document w in
     tid ∈ processedTweetIds w' ∧
     ∃ old' new,
       tweets w' = old' ++ new ∧
       Forall2 same_but_media (tweets w) old' ∧
       Forall (fun t => tweetId t ≠ tid) new ∧
       captured_ids (trace w') = captured_ids (trace w) ++ map tweetId new).
Proof.
  split.
  - intros options mediaMap0 document ok events w.
    destruct (harvest_inv_session options mediaMap0 document ok events)
      as [N P _ TN _ _].
    auto.
  - intros ok seedEls document w tid Hin w'. subst w'. unfold updateTweets.
    split; [eapply updateTweets_loop_frame; exact Hin|].
    destruct (updateTweets_loop_appends (bool_decide (is_Some seedEls)) ok
                (default document seedEls) w)
      as (old' & new & Ht & Hold & Hnew & Hcap).
    exists old', new. repeat split; auto.
    apply Forall_forall. intros t Ht' Heq. subst tid.
    rewrite Forall_forall in Hnew. apply (Hnew (tweetId t)); [|exact Hin].
    apply list_elem_of_fmap. eauto.
Qed.

(** C9. An id given in [skipTweetIds] is never captured in the session: it
    is not among the captured ids, no pending record carries it, and no
    record of an exported batch carries it. *)
Theorem skipped_ids_never_captured (options : Options)
    (mediaMap0 : gmap string (list string)) (document : list Element)
    (ok : bool) (events : list Event) (skip : list string) (tid : string) :
  o_skipTweetIds options = Some skip →
  tid ∈ skip →
  let w := session options mediaMap0 document ok events in
  (tid ∉ captured_ids (trace w)) ∧
  (∀ t, t ∈ tweets w → tweetId t ≠ tid) ∧
  (∀ b t, b ∈ flush_attempts (trace w) → t ∈ b → tweetId t ≠ tid).
Proof.
  intros Hopt Hin w.
  destruct (harvest_inv_session options mediaMap0 document ok events)
    as [_ _ T _ F S]. fold w in T, F, S.
  assert (Hcfg : skipTweetIds (cfg w) = JsSet.of_list skip).
  { subst w. unfold session. rewrite run_cfg, new_TweetScraper_cfg, Hopt.
    reflexivity. }
  assert (Hskip : tid ∈ skipTweetIds (cfg w))
    by (rewrite Hcfg; apply elem_of_of_list, Hin).
  destruct (S tid Hskip) as [_ Hnot].
  split; [exact Hnot|]. split.
  - intros t Ht <-. apply Hnot, T, Ht.
  - intros b t Hb Ht <-. apply Hnot. eapply F; eassumption.
Qed.

Lemma skipped_ids_never_captured_witness :
  o_skipTweetIds Examples.skip_options = Some ["5"; "9"] ∧
  "9" ∈ ["5"; "9"] ∧
  "9" ∉ captured_ids (trace
          (session Examples.skip_options ∅
             [Examples.article "5" [] []; Examples.article "9" [] []] true
             [Mutated [(Examples.article "9" [] [], true)]])).
Proof.
  assert (H : "9" ∈ ["5"; "9"]) by (right; left).
  split; [reflexivity|]. split; [exact H|].
  apply (skipped_ids_never_captured Examples.skip_options ∅
           [Examples.article "5" [] []; Examples.article "9" [] []] true
           [Mutated [(Examples.article "9" [] [], true)]]
           ["5"; "9"] "9" eq_refl H).
Defined.

(** ** Reaching the stop id *)

Section Termination.

Variable tid : string.

(** Elements before the first one carrying the stop id are processed as if
    the list ended there: none of them exports anything or touches the stop
    id. *)
Lemma updateTweets_loop_before_stop (seeded ok : bool) (pre : list Element) :
  Forall (fun e => extractTweetId e ≠ Some tid) pre →
  ∀ w,
    stopAtTweetId (cfg w) = Some tid →
    tid ∉ processedTweetIds w →
    let w1 := updateTweets_loop seeded ok pre w in
    (∀ rest, updateTweets_loop seeded ok (pre ++ rest) w =
             updateTweets_loop seeded ok rest w1) ∧
    stopAtTweetId (cfg w1) = Some tid ∧
    (tid ∉ processedTweetIds w1) ∧
    flush_attempts (trace w1) = flush_attempts (trace w).
Proof.
  induction 1 as [|el pre Hel _ IH]; intros w Hstop Hout; [cbn; auto|].
  cbn [updateTweets_loop app].
  destruct (extractTweetId el) as [tid'|] eqn:Hid; [|apply IH; assumption].
  assert (Hne : tid' ≠ tid) by congruence.
  destruct (decide (tid' ∈ processedTweetIds w)) as [Hin|Hnew].
  - destruct seeded; [|apply IH; assumption].
    exact (IH (set_tweets
                 (update_first tid' (late_media (extractMedia el)) (tweets w))
                 w) Hstop Hout).
  - assert (Hs : is_stop w tid' = false).
    { unfold is_stop. rewrite Hstop. apply String.eqb_neq, Hne. }
    rewrite Hs.
    destruct (extractTweetData (mediaMap w) el tid') as [t|]; [|apply IH; assumption].
    destruct (IH (capture tid' t w)) as (R & C & P & F); [assumption | |].
    + cbn. rewrite elem_of_union, elem_of_singleton. intros [H|H]; auto.
    + cbv zeta. repeat split; try assumption.
      rewrite F. cbn. rewrite flush_attempts_snoc, app_nil_r. reflexivity.
Qed.

End Termination.

(** C5, as the code has it.  When the elements of one call of
    [updateTweets] reach the first one whose id is the stop id (not yet
    processed), the call ends in [cleanup]: the elements after it are not
    looked at, no record is captured from it or from them, and the call
    exports once, the whole pending batch, when that batch is not empty, and
    not at all when it is empty.  The pending batch then holds the records
    pending before the call, changed at most in their media, followed by
    those captured from the elements before the stop. *)
Theorem stop_halts_and_flushes (ok : bool) (seedEls : option (list Element))
    (document pre rest : list Element) (el : Element) (tid : string)
    (w : World) :
  default document seedEls = pre ++ el :: rest →
  Forall (fun e => extractTweetId e ≠ Some tid) pre →
  extractTweetId el = Some tid →
  stopAtTweetId (cfg w) = Some tid →
  tid ∉ processedTweetIds w →
  let w1 := updateTweets_loop (bool_decide (is_Some seedEls)) ok pre w in
  let w' := updateTweets ok seedEls document w in
  w' = cleanup ok (emit (LogReachedStop tid) w1) ∧
  flush_attempts (trace w') =
    flush_attempts (trace w) ++
    match tweets w1 with [] => [] | _ :: _ => [tweets w1] end ∧
  tweets w' = tweets w1 ∧
  captured_ids (trace w') = captured_ids (trace w1) ∧
  timerActive w' = false ∧
  observerConnected w' = false ∧
  ∃ old' new,
    tweets w1 = old' ++ new ∧
    Forall2 same_but_media (tweets w) old' ∧
    captured_ids (trace w1) = captured_ids (trace w) ++ map tweetId new.
Proof.
  intros Hels Hpre Hid Hstop Hout w1 w'.
  destruct (updateTweets_loop_before_stop tid (bool_decide (is_Some seedEls))
              ok pre Hpre w Hstop Hout) as (R & C & P & F).
  fold w1 in R, C, P, F.
  assert (Hw' : w' = cleanup ok (emit (LogReachedStop tid) w1)).
  { subst w'. unfold updateTweets. rewrite Hels, R.
    cbn [updateTweets_loop]. rewrite Hid.
    destruct (decide (tid ∈ processedTweetIds w1)) as [Hin|_]; [tauto|].
    unfold is_stop. rewrite C, String.eqb_refl. reflexivity. }
  split; [exact Hw'|]. rewrite Hw'.
  destruct (cleanup_frame ok (emit (LogReachedStop tid) w1)) as (_ & T & _).
  destruct (cleanup_quiet ok (emit (LogReachedStop tid) w1)) as (K & L).
  rewrite T, K, L. cbn. rewrite flush_attempts_snoc, captured_ids_snoc, F.
  rewrite !app_nil_r. repeat split.
  destruct (updateTweets_loop_appends (bool_decide (is_Some seedEls)) ok pre w)
    as (old' & new & Ht & Hold & _ & Hcap).
  exists old', new. auto.
Qed.

Lemma stop_halts_and_flushes_witness :
  extractTweetId (Examples.article "9" [] []) = Some "9" ∧
  stopAtTweetId (cfg Examples.stop_world) = Some "9" ∧
  map (map tweetId)
    (flush_attempts
       (trace (updateTweets true
                 (Some [Examples.article "7" [] []; Examples.article "9" [] [];
                        Examples.article "8" [] []])
                 [] Examples.stop_world)))
  = [["7"]].
Proof.
  split; [reflexivity|]. split; [reflexivity|].
  assert (Hpre : Forall (fun e => extractTweetId e ≠ Some "9")
                        [Examples.article "7" [] []])
    by (constructor; [vm_compute; discriminate | constructor]).
  destruct (stop_halts_and_flushes true
              (Some [Examples.article "7" [] []; Examples.article "9" [] [];
                     Examples.article "8" [] []])
              [] [Examples.article "7" [] []] [Examples.article "8" [] []]
              (Examples.article "9" [] []) "9" Examples.stop_world
              eq_refl Hpre eq_refl eq_refl (not_elem_of_empty "9"))
    as (_ & F & _).
  rewrite F. reflexivity.
Defined.

(** C5 fails as stated: with nothing pending, reaching the stop id ends the
    call without any export. *)
Lemma stop_with_empty_batch_flushes_nothing :
  extractTweetId (Examples.article "9" [] []) = Some "9" ∧
  stopAtTweetId (cfg Examples.stop_world) = Some "9" ∧
  trace (updateTweets true (Some [Examples.article "9" [] []]) []
           Examples.stop_world)
  = [LogReachedStop "9"; ClearInterval; Disconnect; HudRemove; LogStopped] ∧
  flush_attempts
    (trace (updateTweets true (Some [Examples.article "9" [] []]) []
              Examples.stop_world)) = [].
Proof. repeat split. Qed.

(** ** Correlating thumbnails with captured requests *)

Section Correlation.

Lemma stash_stores (url mediaId : string) (w : World) :
  JsString.match_id "ext_tw_video/" url = Some mediaId →
  stored (mediaMap (stash url w)) mediaId url.
Proof.
  intros Hm. unfold stash, stored. rewrite Hm. cbn.
  rewrite lookup_insert_eq. cbn. apply elem_of_app. right.
  apply list_elem_of_singleton. reflexivity.
Qed.

(** The table only grows. *)
Lemma stash_keeps (url' mediaId url : string) (w : World) :
  stored (mediaMap w) mediaId url →
  stored (mediaMap (stash url' w)) mediaId url.
Proof.
  unfold stash, stored. intros H.
  destruct (JsString.match_id "ext_tw_video/" url') as [mid'|]; [|exact H].
  cbn. destruct (decide (mid' = mediaId)) as [->|Hne].
  - rewrite lookup_insert_eq. cbn. apply elem_of_app. left. exact H.
  - rewrite lookup_insert_ne by exact Hne. exact H.
Qed.

Lemma step_keeps (mediaId url : string) (w : World) (e : Event) :
  stored (mediaMap w) mediaId url → stored (mediaMap (step w e)) mediaId url.
Proof.
  intros H. destruct e as [url' | h ok | arts | ok]; cbn [step].
  - unfold on_request.
    destruct (JsString.includes url' "video.twimg.com");
      [apply stash_keeps, H | exact H].
  - destruct (timerActive w); [|exact H].
    rewrite (proj2 (tick_frame ok h w)). exact H.
  - destruct (observerConnected w); [|exact H].
    rewrite (proj2 (observer_callback_frame arts w)). exact H.
  - destruct (cleanup_frame ok w) as (_ & _ & _ & M & _). rewrite M. exact H.
Qed.

Lemma run_keeps (mediaId url : string) (events : list Event) (w : World) :
  stored (mediaMap w) mediaId url →
  stored (mediaMap (run w events)) mediaId url.
Proof.
  unfold run. revert w.
  induction events as [|e events IH]; intros w H; [exact H|].
  cbn [fold_left]. apply IH, step_keeps, H.
Qed.

Lemma correlate_keeps (m : gmap string (list string)) (acc : list string)
    (thumbUrl u : string) :
  u ∈ acc → u ∈ correlate m acc thumbUrl.
Proof.
  intros H. unfold correlate.
  destruct (JsString.match_id "ext_tw_video_thumb/" thumbUrl) as [mid|];
    [|exact H].
  destruct (JsString.truthy mid); [|exact H].
  apply elem_of_fold_add. left. exact H.
Qed.

Lemma match_id_at_truthy (lit s ds : string) :
  JsString.match_id_at lit s = Some ds → JsString.truthy ds = true.
Proof.
  unfold JsString.match_id_at. destruct (String.prefix lit s); [|discriminate].
  destruct (JsString.span_digits _) as [ds' r].
  destruct (JsString.truthy ds') eqn:E; [|discriminate].
  destruct (String.prefix "/" r); [|discriminate].
  intros [= <-]. exact E.
Qed.

(** The captured group of the pattern is never empty. *)
Lemma match_id_truthy (lit s ds : string) :
  JsString.match_id lit s = Some ds → JsString.truthy ds = true.
Proof.
  induction s as [|c s IH]; cbn [JsString.match_id].
  - destruct (JsString.match_id_at lit EmptyString) eqn:E; [|discriminate].
    intros [= <-]. eapply match_id_at_truthy, E.
  - destruct (JsString.match_id_at lit (String c s)) eqn:E; [|exact IH].
    intros [= <-]. eapply match_id_at_truthy, E.
Qed.

Lemma correlate_hit (m : gmap string (list string)) (acc : list string)
    (thumbUrl mediaId url : string) :
  JsString.match_id "ext_tw_video_thumb/" thumbUrl = Some mediaId →
  stored m mediaId url →
  url ∈ correlate m acc thumbUrl.
Proof.
  intros Hm Hs. unfold correlate. rewrite Hm.
  rewrite (match_id_truthy _ _ _ Hm).
  apply elem_of_fold_add. right. exact Hs.
Qed.

Lemma fold_correlate_keeps (m : gmap string (list string))
    (thumbs acc : list string) (u : string) :
  u ∈ acc → u ∈ fold_left (correlate m) thumbs acc.
Proof.
  revert acc. induction thumbs as [|th thumbs IH]; intros acc H; [exact H|].
  cbn [fold_left]. apply IH, correlate_keeps, H.
Qed.

Lemma fold_correlate_hit (m : gmap string (list string))
    (thumbs acc : list string) (thumbUrl mediaId url : string) :
  thumbUrl ∈ thumbs →
  JsString.match_id "ext_tw_video_thumb/" thumbUrl = Some mediaId →
  stored m mediaId url →
  url ∈ fold_left (correlate m) thumbs acc.
Proof.
  intros Hin Hm Hs. revert acc.
  induction thumbs as [|th thumbs IH]; intros acc; [inversion Hin|].
  cbn [fold_left]. apply elem_of_cons in Hin as [<- | Hin].
  - apply fold_correlate_keeps. eapply correlate_hit; eassumption.
  - apply IH, Hin.
Qed.

End Correlation.

(** C6. A url with the [ext_tw_video/digits/] pattern that [stash] has put in
    the table stays there whatever happens next; an item extracted at any
    later point whose thumbnails include one embedding the same digits yields
    a record whose videos contain that url. *)
Theorem capture_before_extraction (w : World) (url mediaId : string)
    (events : list Event) (el : Element) (timeEl : TimeEl)
    (thumbUrl tid : string) :
  JsString.match_id "ext_tw_video/" url = Some mediaId →
  thumbUrl ∈ m_thumbnails (extractMedia el) →
  JsString.match_id "ext_tw_video_thumb/" thumbUrl = Some mediaId →
  el_time el = Some timeEl →
  let w' := run (stash url w) events in
  stored (mediaMap w') mediaId url ∧
  ∃ t, extractTweetData (mediaMap w') el tid = Some t ∧ url ∈ videos t.
Proof.
  intros Hurl Hthumb Hid Htime w'.
  assert (Hs : stored (mediaMap w') mediaId url)
    by (apply run_keeps, stash_stores, Hurl).
  split; [exact Hs|].
  unfold extractTweetData. rewrite Htime. eexists. split; [reflexivity|].
  cbn [videos]. eapply fold_correlate_hit; eassumption.
Qed.

Lemma capture_before_extraction_witness :
  JsString.match_id "ext_tw_video/" Examples.video_url = Some "123456" ∧
  JsString.match_id "ext_tw_video_thumb/" Examples.thumb_url = Some "123456" ∧
  ∃ t, extractTweetData
         (mediaMap (run (stash Examples.video_url Examples.stalled_world)
                        [TimerFires 4000 true]))
         Examples.video_article "7" = Some t ∧
       Examples.video_url ∈ videos t.
Proof.
  split; [reflexivity|]. split; [reflexivity|].
  refine (proj2 (capture_before_extraction Examples.stalled_world
            Examples.video_url "123456" [TimerFires 4000 true]
            Examples.video_article
            (mkTimeEl (Some "2025-04-21T10:00:00.000Z")
                      (Some "https://x.com/ann/status/7")
                      (Some "https://x.com/ann/status/7"))
            Examples.thumb_url "7" eq_refl _ eq_refl eq_refl)).
  vm_compute. left.
Defined.

(** ** Late media *)

Section LateMedia.

(** A populated field is never overwritten by the late-media branch. *)
Lemma late_media_keeps_populated (media : Media) (t : Tweet) :
  (images t ≠ [] → images (late_media media t) = images t) ∧
  (videos t ≠ [] → videos (late_media media t) = videos t).
Proof.
  destruct t as [i a x d p n ims vs], media as [mi mv mt].
  destruct mi, ims, mv, vs; cbn; split; congruence.
Qed.

(** The late-media branch takes its videos from [extractMedia], that is from
    the [source] nodes of the article only: without such a node the videos of
    every record stay what they were. *)
Lemma late_media_without_sources (el : Element) (t : Tweet) :
  el_videoSources el = [] →
  videos (late_media (extractMedia el) t) = videos t.
Proof.
  intros Hsrc. unfold extractMedia. rewrite Hsrc.
  destruct t as [i a x d p n ims vs]. unfold late_media. cbn.
  match goal with
  | |- context [fst ?acc] => destruct (fst acc)
  end; destruct ims; reflexivity.
Qed.

End LateMedia.

(** C2, at the failing input.  An article whose only media node is the
    thumbnail of video 123456 is captured with no videos; the request for
    that video is then stashed under 123456; the article is then processed
    again from a mutation.  The record's videos are still empty, though a
    fresh extraction of the same article at that point finds the url. *)
Lemma late_reprocessing_misses_captured_video :
  let w0 := new_TweetScraper Examples.default_options ∅
              [Examples.video_article] true in
  let w1 := step w0 (Request Examples.video_url) in
  let w2 := step w1 (Mutated [(Examples.video_article, true)]) in
  map tweetId (tweets w0) = ["7"] ∧
  map videos (tweets w0) = [[]] ∧
  mediaMap w1 !! "123456" = Some [Examples.video_url] ∧
  map tweetId (tweets w2) = ["7"] ∧
  map videos (tweets w2) = [[]] ∧
  videos <$> extractTweetData (mediaMap w1) Examples.video_article "7"
    = Some [Examples.video_url].
Proof. vm_compute. repeat split. Qed.

Lemma one_record_per_identifier_witness :
  "7" ∈ processedTweetIds Examples.full_world ∧
  tweets (updateTweets true (Some [Examples.article "7" [] []]) []
            Examples.full_world) = [Examples.t7].
Proof.
  assert (H : "7" ∈ processedTweetIds Examples.full_world)
    by exact (proj2 (elem_of_singleton (C:=gset string) "7" "7") eq_refl).
  split; [exact H|].
  destruct (proj2 one_record_per_identifier true
              (Some [Examples.article "7" [] []]) [] Examples.full_world "7" H)
    as (_ & old' & new & Ht & _).
  reflexivity.
Defined.

Lemma extractMedia_classification_witness :
  Examples.thumb_url ∈ collected_urls Examples.video_article ∧
  Examples.thumb_url ∈ m_thumbnails (extractMedia Examples.video_article) ∧
  Examples.thumb_url ∉ m_images (extractMedia Examples.video_article).
Proof.
  assert (H : Examples.thumb_url ∈ collected_urls Examples.video_article)
    by (vm_compute; left).
  split; [exact H|].
  destruct (extractMedia_classification Examples.video_article
              Examples.thumb_url H) as (I & T & _).
  split.
  - apply T. reflexivity.
  - intros Hin. apply I in Hin as [_ Hin]. discriminate Hin.
Defined.

(** * Further properties of the code *)

(** ** Strings *)

Section StringFacts.

Lemma append_cons (c : ascii) (a b : string) :
  (String c a ++ b)%string = String c (a ++ b)%string.
Proof. reflexivity. Qed.

Lemma append_nil_r (s : string) : (s ++ "")%string = s.
Proof.
  induction s as [|c s IH]; [reflexivity|]. rewrite append_cons, IH.
  reflexivity.
Qed.

Lemma append_assoc (a b c : string) :
  ((a ++ b) ++ c)%string = (a ++ (b ++ c))%string.
Proof.
  induction a as [|x a IH]; [reflexivity|]. rewrite !append_cons, IH.
  reflexivity.
Qed.

Lemma prefix_iff (a s : string) :
  String.prefix a s = true ↔ ∃ r, s = (a ++ r)%string.
Proof.
  revert s. induction a as [|x a IH]; intros s.
  - destruct s; cbn [String.prefix]; split; eauto.
  - destruct s as [|y s]; cbn [String.prefix].
    + split; [discriminate | intros [r Hr]; discriminate].
    + destruct (ascii_dec x y) as [->|Hne].
      * rewrite IH. split; intros [r Hr]; exists r;
          rewrite append_cons in *; congruence.
      * split; [discriminate|].
        intros [r Hr]. rewrite append_cons in Hr. congruence.
Qed.

Lemma drop_app (a r : string) :
  JsString.drop (String.length a) (a ++ r)%string = r.
Proof. induction a as [|x a IH]; [destruct r; reflexivity | exact IH]. Qed.

Lemma includes_iff (s sub : string) :
  JsString.includes s sub = true ↔
  ∃ pre post, s = (pre ++ sub ++ post)%string.
Proof.
  induction s as [|c s IH]; cbn [JsString.includes];
    rewrite orb_true_iff, prefix_iff.
  - split.
    + intros [[r Hr] | H]; [exists EmptyString, r; exact Hr | discriminate].
    + intros (pre & post & H). left.
      destruct pre; [eauto | rewrite append_cons in H; discriminate].
  - rewrite IH. split.
    + intros [[r Hr] | (pre & post & H)].
      * exists EmptyString, r. exact Hr.
      * exists (String c pre), post. rewrite append_cons, H. reflexivity.
    + intros (pre & post & H). destruct pre as [|d pre].
      * left. eauto.
      * right. exists pre, post. rewrite append_cons in H. congruence.
Qed.

Lemma endsWith_iff (s suf : string) :
  JsString.endsWith s suf = true ↔ ∃ pre, s = (pre ++ suf)%string.
Proof.
  induction s as [|c s IH]; cbn [JsString.endsWith];
    rewrite orb_true_iff, String.eqb_eq.
  - split.
    + intros [<- | H]; [exists EmptyString; reflexivity | discriminate].
    + intros (pre & H). left.
      destruct pre; [exact H | rewrite append_cons in H; discriminate].
  - rewrite IH. split.
    + intros [<- | (pre & H)].
      * exists EmptyString. reflexivity.
      * exists (String c pre). rewrite append_cons, H. reflexivity.
    + intros (pre & H). destruct pre as [|d pre].
      * left. exact H.
      * right. exists pre. rewrite append_cons in H. congruence.
Qed.

Lemma contains_char_app (c : ascii) (a b : string) :
  contains_char c (a ++ b)%string = contains_char c a || contains_char c b.
Proof.
  induction a as [|x a IH]; [reflexivity|].
  rewrite append_cons. cbn [contains_char]. rewrite IH, orb_assoc.
  reflexivity.
Qed.

(** A run of digits has no character that is not a digit. *)
Lemma all_digits_contains (c : ascii) (ds : string) :
  JsString.is_digit c = false → JsString.all_digits ds = true →
  contains_char c ds = false.
Proof.
  intros Hc. induction ds as [|d ds IH]; cbn [contains_char JsString.all_digits];
    [reflexivity|].
  intros H. apply andb_true_iff in H as [Hd Hds].
  rewrite (IH Hds), orb_false_r. apply Ascii.eqb_neq. congruence.
Qed.

Lemma span_digits_sound (s : string) :
  s = (fst (JsString.span_digits s) ++ snd (JsString.span_digits s))%string ∧
  JsString.all_digits (fst (JsString.span_digits s)) = true.
Proof.
  induction s as [|c s [IH1 IH2]]; cbn [JsString.span_digits]; [auto|].
  destruct (JsString.is_digit c) eqn:Hc; [|auto].
  destruct (JsString.span_digits s) as [ds r]. cbn [fst snd] in *.
  rewrite append_cons, <- IH1. cbn [JsString.all_digits].
  rewrite Hc, IH2. auto.
Qed.

(** The digit run in front of a slash is taken whole. *)
Lemma span_digits_slash (ds post : string) :
  JsString.all_digits ds = true →
  JsString.span_digits (ds ++ "/" ++ post)%string = (ds, ("/" ++ post)%string).
Proof.
  induction ds as [|d ds IH]; cbn [JsString.all_digits]; intros H.
  - reflexivity.
  - apply andb_true_iff in H as [Hd Hds].
    rewrite append_cons. cbn [JsString.span_digits].
    rewrite Hd, (IH Hds). reflexivity.
Qed.

End StringFacts.

(** ** The id pattern *)

Section IdPattern.

Variable lit : string.

Lemma match_id_at_iff (s ds : string) :
  JsString.match_id_at lit s = Some ds ↔ id_occurrence lit s EmptyString ds.
Proof.
  unfold JsString.match_id_at, id_occurrence, JsString.test_digits. split.
  - destruct (String.prefix lit s) eqn:Hp; [|discriminate].
    apply prefix_iff in Hp as [r ->]. rewrite drop_app.
    destruct (span_digits_sound r) as [Hr Hd].
    destruct (JsString.span_digits r) as [ds' r']. cbn [fst snd] in *.
    destruct (JsString.truthy ds') eqn:Ht; [|discriminate].
    destruct (String.prefix "/" r') eqn:Hs; [|discriminate].
    apply prefix_iff in Hs as [post ->]. intros [= <-].
    rewrite Ht, Hd. split; [reflexivity|]. exists post. rewrite Hr. reflexivity.
  - intros (Hd & post & ->). apply andb_true_iff in Hd as [Ht Hd].
    assert (Hp : String.prefix lit (lit ++ ds ++ "/" ++ post)%string = true)
      by (apply prefix_iff; eauto).
    change ("" ++ lit ++ ds ++ "/" ++ post)%string
      with (lit ++ ds ++ "/" ++ post)%string.
    rewrite Hp, drop_app, (span_digits_slash _ _ Hd), Ht.
    assert (Hs : String.prefix "/" ("/" ++ post)%string = true)
      by (apply prefix_iff; eauto).
    rewrite Hs. reflexivity.
Qed.

Lemma id_occurrence_cons (c : ascii) (s pre ds : string) :
  id_occurrence lit (String c s) (String c pre) ds ↔ id_occurrence lit s pre ds.
Proof.
  unfold id_occurrence. split; intros (Hd & post & H); (split; [exact Hd|]);
    exists post.
  - rewrite append_cons in H. injection H as H. exact H.
  - rewrite append_cons, H. reflexivity.
Qed.

(** A match is an occurrence, and no occurrence starts before it; an
    occurrence at the same place has the same digits. *)
Lemma match_id_leftmost (s ds : string) :
  JsString.match_id lit s = Some ds →
  ∃ pre,
    id_occurrence lit s pre ds ∧
    ∀ pre' ds', id_occurrence lit s pre' ds' →
      (String.length pre < String.length pre')%nat ∨ (pre' = pre ∧ ds' = ds).
Proof.
  induction s as [|c s IH]; cbn [JsString.match_id].
  - destruct (JsString.match_id_at lit EmptyString) as [d|] eqn:E;
      [|discriminate].
    intros [= <-]. exists EmptyString. split; [apply match_id_at_iff, E|].
    intros pre' ds' Hocc. right. destruct pre' as [|c' pre'].
    + apply match_id_at_iff in Hocc. split; congruence.
    + destruct Hocc as (_ & post & H). rewrite append_cons in H. discriminate.
  - destruct (JsString.match_id_at lit (String c s)) as [d|] eqn:E.
    + intros [= <-]. exists EmptyString. split; [apply match_id_at_iff, E|].
      intros pre' ds' Hocc. destruct pre' as [|c' pre'].
      * right. apply match_id_at_iff in Hocc. split; congruence.
      * left. cbn. lia.
    + intros Hm. destruct (IH Hm) as (pre & Hocc & Hleft).
      exists (String c pre).
      split; [apply (proj2 (id_occurrence_cons _ _ _ _)), Hocc|].
      intros pre' ds' Hocc'. destruct pre' as [|c' pre'].
      * apply match_id_at_iff in Hocc'. congruence.
      * assert (c' = c) as ->.
        { destruct Hocc' as (_ & post & H). rewrite append_cons in H.
          congruence. }
        apply (proj1 (id_occurrence_cons _ _ _ _)) in Hocc'.
        destruct (Hleft pre' ds' Hocc') as [Hlt | [-> ->]];
          [left; cbn; lia | right; split; reflexivity].
Qed.

(** Where there is an occurrence there is a match. *)
Lemma match_id_complete (s pre ds : string) :
  id_occurrence lit s pre ds → is_Some (JsString.match_id lit s).
Proof.
  revert s. induction pre as [|c pre IH]; intros s Hocc.
  - apply match_id_at_iff in Hocc.
    destruct s; cbn [JsString.match_id]; rewrite Hocc; eauto.
  - destruct s as [|c' s].
    + destruct Hocc as (_ & post & H). rewrite append_cons in H. discriminate.
    + assert (c' = c) as ->.
      { destruct Hocc as (_ & post & H). rewrite append_cons in H.
        congruence. }
      apply (proj1 (id_occurrence_cons _ _ _ _)) in Hocc.
      cbn [JsString.match_id].
      destruct (JsString.match_id_at lit (String c s)); eauto.
Qed.

Lemma match_id_none_iff (s : string) :
  JsString.match_id lit s = None ↔ ∀ pre ds, ¬ id_occurrence lit s pre ds.
Proof.
  split.
  - intros Hn pre ds Hocc. apply match_id_complete in Hocc as [d Hd].
    congruence.
  - intros Hno. destruct (JsString.match_id lit s) as [d|] eqn:E;
      [|reflexivity].
    apply match_id_leftmost in E as (pre & Hocc & _).
    destruct (Hno pre d Hocc).
Qed.

(** The match is the leftmost occurrence. *)
Lemma match_id_of_leftmost (s pre ds : string) :
  id_occurrence lit s pre ds →
  (∀ pre' ds', id_occurrence lit s pre' ds' →
     (String.length pre <= String.length pre')%nat) →
  JsString.match_id lit s = Some ds.
Proof.
  intros Hocc Hleft.
  destruct (match_id_complete _ _ _ Hocc) as [d Hd].
  destruct (match_id_leftmost _ _ Hd) as (pre0 & Hocc0 & Hleft0).
  destruct (Hleft0 pre ds Hocc) as [Hlt | [_ ->]]; [|exact Hd].
  specialize (Hleft pre0 d Hocc0). lia.
Qed.

End IdPattern.

(** ** The correlation table *)

Section Table.

Lemma stash_match (url mid : string) (w : World) :
  JsString.match_id "ext_tw_video/" url = Some mid →
  mediaMap (stash url w) =
    <[mid := default [] (mediaMap w !! mid) ++ [url]]> (mediaMap w) ∧
  trace (stash url w) = trace w ++ [LogStashed mid url].
Proof. intros H. unfold stash. rewrite H. split; reflexivity. Qed.

Lemma on_request_table_ok (url : string) (w : World) :
  table_ok (mediaMap w) → table_ok (mediaMap (on_request url w)).
Proof.
  intros Hok. unfold on_request.
  destruct (JsString.includes url "video.twimg.com") eqn:Hhost; [|exact Hok].
  destruct (JsString.match_id "ext_tw_video/" url) as [mid|] eqn:Hm;
    [|unfold stash; rewrite Hm; exact Hok].
  destruct (stash_match url mid w Hm) as [-> _].
  destruct (match_id_leftmost _ _ _ Hm) as (pre & (Hd & post & Hurl) & _).
  intros k urls. destruct (decide (mid = k)) as [<- | Hne].
  - rewrite lookup_insert_eq. intros [= <-]. split; [exact Hd|].
    intros u Hu. apply elem_of_app in Hu as [Hu | Hu].
    + destruct (mediaMap w !! mid) as [old|] eqn:Hold; [|inversion Hu].
      apply (Hok mid old Hold), Hu.
    + apply list_elem_of_singleton in Hu as ->. split; [exact Hhost|].
      apply includes_iff. exists pre, post.
      rewrite Hurl, !append_assoc. reflexivity.
  - rewrite lookup_insert_ne by exact Hne. apply Hok.
Qed.

Lemma step_mediaMap (w : World) (e : Event) :
  (∃ url, e = Request url ∧ mediaMap (step w e) = mediaMap (on_request url w)) ∨
  mediaMap (step w e) = mediaMap w.
Proof.
  destruct e as [url | h ok | arts | ok]; cbn [step].
  - left. eauto.
  - right. destruct (timerActive w); [apply tick_frame | reflexivity].
  - right. destruct (observerConnected w);
      [apply observer_callback_frame | reflexivity].
  - right. apply cleanup_frame.
Qed.

Lemma stash_prefix (url k : string) (w : World) :
  default [] (mediaMap w !! k) `prefix_of`
  default [] (mediaMap (stash url w) !! k).
Proof.
  unfold stash.
  destruct (JsString.match_id "ext_tw_video/" url) as [mid|]; [|reflexivity].
  cbn. destruct (decide (mid = k)) as [<- | Hne].
  - rewrite lookup_insert_eq. cbn. apply prefix_app_r. reflexivity.
  - rewrite lookup_insert_ne by exact Hne. reflexivity.
Qed.

End Table.

(** X1. [stash] changes nothing at all, neither the table nor the console
    (the trace), exactly when the url has no place where [ext_tw_video/] is
    followed by at least one digit and a slash. *)
Theorem stash_noop_iff (url : string) (w : World) :
  stash url w = w ↔ ∀ pre ds, ¬ id_occurrence "ext_tw_video/" url pre ds.
Proof.
  rewrite <- match_id_none_iff. split.
  - intros Heq.
    destruct (JsString.match_id "ext_tw_video/" url) as [mid|] eqn:Hm;
      [|reflexivity].
    destruct (stash_match url mid w Hm) as [_ Ht]. rewrite Heq in Ht.
    apply (f_equal length) in Ht. rewrite length_app in Ht. cbn in Ht. lia.
  - intros Hm. unfold stash. rewrite Hm. reflexivity.
Qed.

(** X2. When the url has such a place, [stash] files it under the digits of
    the leftmost one: the url is appended behind the urls already stored
    under that key, and every other key keeps its entry. *)
Theorem stash_files_under_leftmost_id (url pre ds : string) (w : World) :
  id_occurrence "ext_tw_video/" url pre ds →
  ∃ pre0 mid,
    id_occurrence "ext_tw_video/" url pre0 mid ∧
    (∀ pre' ds', id_occurrence "ext_tw_video/" url pre' ds' →
       (String.length pre0 < String.length pre')%nat ∨
       (pre' = pre0 ∧ ds' = mid)) ∧
    mediaMap (stash url w) !! mid =
      Some (default [] (mediaMap w !! mid) ++ [url]) ∧
    (∀ k, k ≠ mid → mediaMap (stash url w) !! k = mediaMap w !! k).
Proof.
  intros Hocc.
  destruct (match_id_complete _ _ _ _ Hocc) as [mid Hm].
  destruct (match_id_leftmost _ _ _ Hm) as (pre0 & Hocc0 & Hleft).
  destruct (stash_match url mid w Hm) as [Hmap _].
  exists pre0, mid. rewrite Hmap.
  split; [exact Hocc0|]. split; [exact Hleft|].
  split; [apply lookup_insert_eq|].
  intros k Hne. apply lookup_insert_ne. congruence.
Qed.

Lemma stash_files_under_leftmost_id_witness :
  id_occurrence "ext_tw_video/" Examples.video_url
    "https://video.twimg.com/" "123456" ∧
  ∃ pre0 mid,
    id_occurrence "ext_tw_video/" Examples.video_url pre0 mid ∧
    mediaMap (stash Examples.video_url Examples.stalled_world) !! mid =
      Some [Examples.video_url].
Proof.
  assert (H : id_occurrence "ext_tw_video/" Examples.video_url
                "https://video.twimg.com/" "123456")
    by (split; [reflexivity | exists "pu/vid/720x1280/a.mp4"%string; reflexivity]).
  split; [exact H|].
  destruct (stash_files_under_leftmost_id Examples.video_url
              "https://video.twimg.com/" "123456" Examples.stalled_world H)
    as (pre0 & mid & Hocc & _ & Hm & _).
  exists pre0, mid. split; [exact Hocc | exact Hm].
Defined.

(** X3. Through a whole session the table keeps its shape: if it has it when
    the constructor runs, then afterwards every key is a non-empty run of
    digits and every url under a key contains [video.twimg.com] and
    [ext_tw_video/], the key and a slash. *)
Theorem session_table_ok (options : Options)
    (mediaMap0 : gmap string (list string)) (document : list Element)
    (ok : bool) (events : list Event) :
  table_ok mediaMap0 →
  table_ok (mediaMap (session options mediaMap0 document ok events)).
Proof.
  intros H0. unfold session, run.
  assert (Hnew : table_ok (mediaMap (new_TweetScraper options mediaMap0
                                        document ok))).
  { unfold new_TweetScraper, updateTweets.
    match goal with
    | |- table_ok (mediaMap (updateTweets_loop ?a ?b ?c ?d)) =>
        destruct (updateTweets_loop_frame a b c d) as (_ & M & _)
    end.
    rewrite M. exact H0. }
  revert Hnew. generalize (new_TweetScraper options mediaMap0 document ok).
  induction events as [|e events IH]; intros w Hw; [exact Hw|].
  cbn [fold_left]. apply IH.
  destruct (step_mediaMap w e) as [(url & -> & ->) | ->];
    [apply on_request_table_ok, Hw | exact Hw].
Qed.

Lemma session_table_ok_witness :
  table_ok (mediaMap (session Examples.default_options ∅
                        [Examples.video_article] true
                        [Request Examples.video_url])).
Proof.
  apply session_table_ok.
  intros k urls H. rewrite lookup_empty in H. discriminate H.
Defined.

(** X4. The table is append-only: whatever events follow, the urls a key
    holds stay where they are, in their order, and new ones only come behind
    them. *)
Theorem table_append_only (w : World) (events : list Event) (k : string) :
  default [] (mediaMap w !! k) `prefix_of`
  default [] (mediaMap (run w events) !! k).
Proof.
  unfold run. revert w.
  induction events as [|e events IH]; intros w; [reflexivity|].
  cbn [fold_left]. etransitivity; [|apply IH].
  destruct (step_mediaMap w e) as [(url & -> & ->) | ->]; [|reflexivity].
  unfold on_request.
  destruct (JsString.includes url "video.twimg.com");
    [apply stash_prefix | reflexivity].
Qed.

(** ** Splitting *)

Section Split.

Variable sep : ascii.

Lemma split_cons (s : string) : ∃ h t, JsString.split sep s = h :: t.
Proof.
  destruct s as [|c s]; cbn [JsString.split]; [eauto|].
  destruct (Ascii.eqb c sep); [eauto|].
  destruct (JsString.split sep s); eauto.
Qed.

(** Joining the parts with the separator gives the string back. *)
Lemma split_join (s : string) :
  String.concat (String sep EmptyString) (JsString.split sep s) = s.
Proof.
  induction s as [|c s IH]; cbn [JsString.split]; [reflexivity|].
  destruct (split_cons s) as (h & t & Hs). rewrite Hs in *.
  destruct (Ascii.eqb c sep) eqn:Hc.
  - apply Ascii.eqb_eq in Hc as ->.
    change (String.concat (String sep EmptyString) (EmptyString :: h :: t))
      with (String sep (String.concat (String sep EmptyString) (h :: t))).
    rewrite IH. reflexivity.
  - destruct t as [|y t].
    + cbn [String.concat] in *. congruence.
    + change (String.concat (String sep EmptyString) (String c h :: y :: t))
        with (String c (String.concat (String sep EmptyString) (h :: y :: t))).
      rewrite IH. reflexivity.
Qed.

(** No part contains the separator. *)
Lemma split_clean (s : string) :
  Forall (fun p => contains_char sep p = false) (JsString.split sep s).
Proof.
  induction s as [|c s IH]; cbn [JsString.split]; [repeat constructor|].
  destruct (Ascii.eqb c sep) eqn:Hc; [constructor; [reflexivity | exact IH]|].
  destruct (JsString.split sep s) as [|h t]; [repeat constructor|].
  - cbn. rewrite Hc. reflexivity.
  - inversion IH as [|? ? Hh Ht]; subst. constructor; [|exact Ht].
    cbn. rewrite Hc, Hh. reflexivity.
Qed.

Lemma concat_last (h : string) (t : list string) :
  ∃ pre,
    String.concat (String sep EmptyString) (h :: t) =
      (pre ++ List.last (h :: t) EmptyString)%string ∧
    empty_or_ends_with sep pre.
Proof.
  revert h. induction t as [|x t IH]; intros h.
  - exists EmptyString. split; [reflexivity | left; reflexivity].
  - destruct (IH x) as (pre & Hc & Hp).
    exists (h ++ String sep pre)%string. split.
    + change (List.last (h :: x :: t) EmptyString)
        with (List.last (x :: t) EmptyString).
      change (String.concat (String sep EmptyString) (h :: x :: t))
        with (h ++ String sep EmptyString ++
              String.concat (String sep EmptyString) (x :: t))%string.
      rewrite Hc, append_assoc. reflexivity.
    + right. destruct Hp as [-> | (p & ->)].
      * exists h. reflexivity.
      * exists (h ++ String sep p)%string.
        rewrite append_assoc. reflexivity.
Qed.

Lemma concat_hd (h : string) (t : list string) :
  ∃ r,
    String.concat (String sep EmptyString) (h :: t) = (h ++ r)%string ∧
    empty_or_starts_with sep r.
Proof.
  destruct t as [|x t].
  - exists EmptyString. split; [symmetry; apply append_nil_r | left; reflexivity].
  - exists (String sep (String.concat (String sep EmptyString) (x :: t))).
    split; [reflexivity | right; eauto].
Qed.

(** A string without the separator is its own single part. *)
Lemma split_whole (x : string) :
  contains_char sep x = false → JsString.split sep x = [x].
Proof.
  induction x as [|c x IH]; cbn [contains_char JsString.split];
    [reflexivity|].
  intros H. apply orb_false_iff in H as [Hc Hx].
  rewrite Hc, (IH Hx). reflexivity.
Qed.

Lemma split_two_parts (a b : string) :
  (2 <= length (JsString.split sep (a ++ String sep b)))%nat.
Proof.
  induction a as [|c a IH]; rewrite ?append_cons; cbn [JsString.split].
  - change ("" ++ String sep b)%string with (String sep b).
    cbn [JsString.split]. rewrite Ascii.eqb_refl.
    destruct (split_cons b) as (h & t & ->). cbn. lia.
  - destruct (Ascii.eqb c sep); [cbn; lia|].
    destruct (JsString.split sep (a ++ String sep b)) as [|h t];
      [cbn in IH; lia | exact IH].
Qed.

Lemma last_split_app (pre x : string) :
  contains_char sep x = false →
  List.last (JsString.split sep (pre ++ String sep x)) EmptyString = x.
Proof.
  intros Hx. induction pre as [|c pre IH].
  - change ("" ++ String sep x)%string with (String sep x).
    cbn [JsString.split]. rewrite Ascii.eqb_refl, (split_whole x Hx).
    reflexivity.
  - rewrite append_cons. cbn [JsString.split].
    pose proof (split_two_parts pre x) as Hlen.
    destruct (JsString.split sep (pre ++ String sep x)) as [|h [|y t]];
      cbn in Hlen; try lia.
    destruct (Ascii.eqb c sep); exact IH.
Qed.

Lemma hd_split_app (x r : string) :
  contains_char sep x = false → empty_or_starts_with sep r →
  hd EmptyString (JsString.split sep (x ++ r)) = x.
Proof.
  intros Hx Hr. induction x as [|c x IH].
  - change ("" ++ r)%string with r.
    destruct Hr as [-> | (r' & ->)]; [reflexivity|].
    cbn [JsString.split]. rewrite Ascii.eqb_refl. reflexivity.
  - cbn [contains_char] in Hx. apply orb_false_iff in Hx as [Hc Hx].
    rewrite append_cons. cbn [JsString.split]. rewrite Hc.
    specialize (IH Hx).
    destruct (split_cons (x ++ r)) as (h & t & Hs). rewrite Hs in *.
    cbn [hd] in *. rewrite IH. reflexivity.
Qed.

End Split.

(** ** Identity derivation *)

Section Identity.

Lemma last_Forall (P : string → Prop) (h : string) (t : list string) :
  Forall P (h :: t) → P (List.last (h :: t) EmptyString).
Proof.
  revert h. induction t as [|x t IH]; intros h H; inversion H; subst;
    [assumption|].
  change (List.last (h :: x :: t) EmptyString)
    with (List.last (x :: t) EmptyString).
  auto.
Qed.

Lemma truthy_app_cons (a : string) (c : ascii) (b : string) :
  JsString.truthy (a ++ String c b)%string = true.
Proof. destruct a; reflexivity. Qed.

End Identity.

(** X5. An id returned by [extractTweetId] is a non-empty run of digits, and
    it sits in the link around the time node where the code looks for it:
    after the last slash of the url, up to the first question mark behind
    that slash or to the end. *)
Theorem extractTweetId_sound (tweetEl : Element) (id : string) :
  extractTweetId tweetEl = Some id →
  JsString.test_digits id = true ∧
  ∃ t href pre q,
    el_time tweetEl = Some t ∧
    time_parentHref t = Some href ∧
    href = (pre ++ id ++ q)%string ∧
    empty_or_ends_with "/" pre ∧
    empty_or_starts_with "?" q ∧
    contains_char "/" q = false.
Proof.
  unfold extractTweetId.
  destruct (el_time tweetEl) as [t|] eqn:Ht; [|discriminate].
  destruct (time_parentHref t) as [href|] eqn:Hh; [|discriminate].
  destruct (JsString.truthy href); [|discriminate].
  destruct (JsString.test_digits _) eqn:Hd; [|discriminate].
  intros [= <-]. split; [exact Hd|].
  pose proof (split_join "/" href) as Hj.
  pose proof (split_clean "/" href) as Hc.
  destruct (split_cons "/" href) as (h & tl & Hs). rewrite Hs in *.
  destruct (concat_last "/" h tl) as (pre & Hlast & Hpre).
  apply last_Forall in Hc.
  set (L := List.last (h :: tl) EmptyString) in *.
  pose proof (split_join "?" L) as Hj2.
  destruct (split_cons "?" L) as (h2 & tl2 & Hs2). rewrite Hs2 in *.
  destruct (concat_hd "?" h2 tl2) as (q & Hhd & Hq).
  cbn [hd].
  exists t, href, pre, q. repeat split; try assumption.
  - rewrite <- Hj, Hlast, <- Hj2, Hhd. reflexivity.
  - rewrite <- Hj2, Hhd, contains_char_app in Hc.
    apply orb_false_iff in Hc. tauto.
Qed.

Lemma extractTweetId_sound_witness :
  extractTweetId (Examples.article "7" [] []) = Some "7" ∧
  JsString.test_digits "7" = true.
Proof.
  split; [reflexivity|].
  exact (proj1 (extractTweetId_sound (Examples.article "7" [] []) "7" eq_refl)).
Defined.

(** X6. Conversely, whenever the link around the time node ends in a slash,
    a non-empty run of digits and then nothing or a query string without a
    slash in it, [extractTweetId] returns those digits. *)
Theorem extractTweetId_complete (tweetEl : Element) (t : TimeEl)
    (base id q : string) :
  el_time tweetEl = Some t →
  time_parentHref t = Some (base ++ String "/" (id ++ q))%string →
  JsString.test_digits id = true →
  empty_or_starts_with "?" q →
  contains_char "/" q = false →
  extractTweetId tweetEl = Some id.
Proof.
  intros Ht Hh Hd Hq Hs. unfold extractTweetId. rewrite Ht, Hh.
  rewrite truthy_app_cons.
  pose proof Hd as Hd'. apply andb_true_iff in Hd' as [_ Hall].
  assert (Hslash : contains_char "/" (id ++ q)%string = false).
  { rewrite contains_char_app, Hs, orb_false_r.
    apply all_digits_contains; [reflexivity | exact Hall]. }
  rewrite (last_split_app "/" base _ Hslash).
  rewrite (hd_split_app "?" id q); [rewrite Hd; reflexivity | | exact Hq].
  apply all_digits_contains; [reflexivity | exact Hall].
Qed.

Lemma extractTweetId_complete_witness :
  extractTweetId
    (mkElement None
       (Some (mkTimeEl None (Some "https://x.com/ann/status/1912?s=20") None))
       None Examples.no_interaction [] [] [] [])
  = Some "1912".
Proof.
  apply (extractTweetId_complete
           (mkElement None
              (Some (mkTimeEl None (Some "https://x.com/ann/status/1912?s=20")
                              None))
              None Examples.no_interaction [] [] [] [])
           (mkTimeEl None (Some "https://x.com/ann/status/1912?s=20") None)
           "https://x.com/ann/status" "1912" "?s=20" eq_refl eq_refl eq_refl).
  - right. exists "s=20"%string. reflexivity.
  - reflexivity.
Defined.

(** ** Media sets *)

Section MediaSets.

Lemma add_NoDup (l : list string) (x : string) :
  NoDup l → NoDup (JsSet.add l x).
Proof.
  intros H. unfold JsSet.add. destruct (JsSet.mem x l) eqn:E; [exact H|].
  apply NoDup_app. split; [exact H|]. split; [|apply NoDup_singleton].
  intros y Hy Hy'. apply list_elem_of_singleton in Hy' as ->.
  apply mem_true in Hy. congruence.
Qed.

Lemma fold_add_NoDup (xs l : list string) :
  NoDup l → NoDup (fold_left JsSet.add xs l).
Proof.
  revert l. induction xs as [|x xs IH]; intros l H; [exact H|].
  cbn [fold_left]. apply IH, add_NoDup, H.
Qed.

Lemma of_list_NoDup (xs : list string) : NoDup (JsSet.of_list xs).
Proof. apply fold_add_NoDup. constructor. Qed.

Lemma route_NoDup (acc : list string * list string) (u : string) :
  NoDup (fst acc) ∧ NoDup (snd acc) →
  NoDup (fst (route acc u)) ∧ NoDup (snd (route acc u)).
Proof.
  intros [H1 H2]. unfold route.
  destruct (JsString.includes u "ext_tw_video_thumb");
    [|destruct (JsString.includes u "pbs.twimg.com/media")];
    cbn [fst snd]; auto using add_NoDup.
Qed.

Lemma fold_route_NoDup (us : list string) (acc : list string * list string) :
  NoDup (fst acc) ∧ NoDup (snd acc) →
  NoDup (fst (fold_left route us acc)) ∧ NoDup (snd (fold_left route us acc)).
Proof.
  revert acc. induction us as [|u us IH]; intros acc H; [exact H|].
  cbn [fold_left]. apply IH, route_NoDup, H.
Qed.

Lemma correlate_NoDup (m : gmap string (list string)) (acc : list string)
    (thumbUrl : string) :
  NoDup acc → NoDup (correlate m acc thumbUrl).
Proof.
  intros H. unfold correlate.
  destruct (JsString.match_id "ext_tw_video_thumb/" thumbUrl); [|exact H].
  destruct (JsString.truthy s); [apply fold_add_NoDup, H | exact H].
Qed.

Lemma correlate_members (m : gmap string (list string)) (acc : list string)
    (thumbUrl u : string) :
  u ∈ correlate m acc thumbUrl ↔
  u ∈ acc ∨
  ∃ mid, JsString.match_id "ext_tw_video_thumb/" thumbUrl = Some mid ∧
         stored m mid u.
Proof.
  unfold correlate, stored.
  destruct (JsString.match_id "ext_tw_video_thumb/" thumbUrl) as [mid|] eqn:Hm.
  - rewrite (match_id_truthy _ _ _ Hm), elem_of_fold_add. split.
    + intros [H | H]; [left; exact H | right; eauto].
    + intros [H | (mid' & [= <-] & H)]; [left | right]; exact H.
  - split; [auto|]. intros [H | (mid' & Hd & _)]; [exact H | discriminate].
Qed.

Lemma fold_correlate_members (m : gmap string (list string))
    (thumbs acc : list string) (u : string) :
  u ∈ fold_left (correlate m) thumbs acc ↔
  u ∈ acc ∨
  ∃ thumbUrl mid,
    thumbUrl ∈ thumbs ∧
    JsString.match_id "ext_tw_video_thumb/" thumbUrl = Some mid ∧
    stored m mid u.
Proof.
  revert acc. induction thumbs as [|th thumbs IH]; intros acc;
    cbn [fold_left].
  - split; [auto|]. intros [H | (th & mid & Hin & _)]; [exact H|].
    inversion Hin.
  - rewrite IH, correlate_members. split.
    + intros [[H | (mid & Hm & Hs)] | (th' & mid & Hin & Hm & Hs)].
      * left. exact H.
      * right. exists th, mid. split; [left | auto].
      * right. exists th', mid. split; [right; exact Hin | auto].
    + intros [H | (th' & mid & Hin & Hm & Hs)]; [auto|].
      apply elem_of_cons in Hin as [-> | Hin]; [left; right; eauto|].
      right. eauto.
Qed.

Lemma fold_correlate_NoDup (m : gmap string (list string))
    (thumbs acc : list string) :
  NoDup acc → NoDup (fold_left (correlate m) thumbs acc).
Proof.
  revert acc. induction thumbs as [|th thumbs IH]; intros acc H; [exact H|].
  cbn [fold_left]. apply IH, correlate_NoDup, H.
Qed.

Lemma lazy_close_truthy (s acc u : string) :
  JsString.truthy acc = true →
  JsString.lazy_close acc s = Some u → JsString.truthy u = true.
Proof.
  revert acc. induction s as [|c s IH]; intros acc Hacc;
    cbn [JsString.lazy_close]; [discriminate|].
  destruct (Ascii.eqb c ")"); [intros [= <-]; exact Hacc|].
  destruct (Ascii.eqb c JsString.dquote && String.prefix ")" s);
    [intros [= <-]; exact Hacc|].
  destruct (JsString.at_line_terminator (String c s)); [discriminate|].
  apply IH. destruct acc; reflexivity.
Qed.

Lemma lazy_group_truthy (s u : string) :
  JsString.lazy_group s = Some u → JsString.truthy u = true.
Proof.
  unfold JsString.lazy_group. destruct s as [|c s]; [discriminate|].
  destruct (JsString.at_line_terminator (String c s)); [discriminate|].
  apply lazy_close_truthy. reflexivity.
Qed.

Lemma match_url_truthy (s u : string) :
  JsString.match_url s = Some u → JsString.truthy u = true.
Proof.
  assert (Hat : ∀ r, JsString.url_at r = Some u → JsString.truthy u = true).
  { intros r. unfold JsString.url_at. destruct r as [|c r]; [discriminate|].
    destruct (Ascii.eqb c JsString.dquote);
      [destruct (JsString.lazy_group r) eqn:E|];
      try (intros [= <-]); eauto using lazy_group_truthy. }
  induction s as [|c s IH]; cbn [JsString.match_url].
  - destruct (String.prefix "url(" EmptyString); [|discriminate].
    destruct (JsString.url_at _) eqn:E; [|discriminate].
    intros [= <-]. eauto.
  - destruct (String.prefix "url(" (String c s)); [|exact IH].
    destruct (JsString.url_at _) eqn:E; [|exact IH].
    intros [= <-]. eauto.
Qed.

Lemma extractTweetData_media (m : gmap string (list string)) (el : Element)
    (tid : string) (t : Tweet) :
  extractTweetData m el tid = Some t →
  images t = m_images (extractMedia el) ∧
  videos t = fold_left (correlate m) (m_thumbnails (extractMedia el))
               (JsSet.of_list (m_videos (extractMedia el))).
Proof.
  unfold extractTweetData. destruct (el_time el); [|discriminate].
  intros [= <-]. split; reflexivity.
Qed.

(** An element whose id resolves has a time node, hence a record. *)
Lemma extractTweetData_some (m : gmap string (list string)) (el : Element)
    (tid : string) :
  extractTweetId el = Some tid → is_Some (extractTweetData m el tid).
Proof.
  unfold extractTweetId, extractTweetData.
  destruct (el_time el); [eauto | discriminate].
Qed.

Lemma late_media_fixed (media : Media) (t : Tweet) :
  (m_images media ≠ [] → images t ≠ []) →
  (m_videos media ≠ [] → videos t ≠ []) →
  late_media media t = t.
Proof.
  destruct t as [i a x d p n ims vs], media as [mi mv mt]. cbn.
  intros Hi Hv. unfold late_media. cbn.
  destruct mi, ims, mv, vs; try reflexivity;
    try (exfalso; apply Hi; [discriminate | reflexivity]);
    exfalso; apply Hv; (discriminate || reflexivity).
Qed.

End MediaSets.

Lemma extractMedia_NoDup (root : Element) :
  NoDup (m_images (extractMedia root)) ∧
  NoDup (m_thumbnails (extractMedia root)).
Proof.
  pose proof (extractMedia_routes root) as E.
  destruct (fold_route_NoDup (collected_urls root) ([], []))
    as [N1 N2]; [split; constructor|].
  rewrite <- E in N1, N2. auto.
Qed.

(** X7. The three lists [extractMedia] returns are duplicate-free, no url is
    both an image and a thumbnail, and the videos are exactly the sources of
    the video nodes. *)
Theorem extractMedia_sets (root : Element) :
  NoDup (m_images (extractMedia root)) ∧
  NoDup (m_thumbnails (extractMedia root)) ∧
  NoDup (m_videos (extractMedia root)) ∧
  (∀ u, u ∈ m_images (extractMedia root) →
        u ∉ m_thumbnails (extractMedia root)) ∧
  (∀ u, u ∈ m_videos (extractMedia root) ↔ u ∈ el_videoSources root).
Proof.
  pose proof (extractMedia_routes root) as E.
  destruct (extractMedia_NoDup root) as [N1 N2].
  split; [exact N1|]. split; [exact N2|].
  split; [apply of_list_NoDup|]. split.
  - intros u Hi Ht.
    destruct (fold_route_members (collected_urls root) ([], []) u) as [F1 F2].
    rewrite <- E in F1, F2. cbn [fst snd] in F1, F2.
    apply F1 in Hi as [Hi | (_ & Hi & _)]; [inversion Hi|].
    apply F2 in Ht as [Ht | (_ & Ht)]; [inversion Ht|]. congruence.
  - intros u. apply elem_of_of_list.
Qed.

(** X8. The videos of an extracted record are duplicate-free, and a url is
    among them exactly when it is the source of a video node of the item or
    is stored in the table under the id read from one of the item's
    thumbnails. *)
Theorem extractTweetData_videos (m : gmap string (list string))
    (el : Element) (tid : string) (t : Tweet) :
  extractTweetData m el tid = Some t →
  NoDup (videos t) ∧
  NoDup (images t) ∧
  ∀ u, u ∈ videos t ↔
       u ∈ el_videoSources el ∨
       ∃ thumbUrl mid,
         thumbUrl ∈ m_thumbnails (extractMedia el) ∧
         JsString.match_id "ext_tw_video_thumb/" thumbUrl = Some mid ∧
         stored m mid u.
Proof.
  unfold extractTweetData. destruct (el_time el); [|discriminate].
  intros [= <-]. cbn [videos images].
  split; [apply fold_correlate_NoDup, of_list_NoDup|].
  split; [apply extractMedia_NoDup|].
  intros u. rewrite fold_correlate_members, !elem_of_of_list. reflexivity.
Qed.

Lemma extractTweetData_videos_witness :
  ∃ t, extractTweetData ∅ Examples.video_article "7" = Some t ∧
       NoDup (videos t).
Proof.
  eexists. split; [reflexivity|].
  eapply (extractTweetData_videos ∅ Examples.video_article "7"). reflexivity.
Defined.

(** X9. Three guards of the code never fail: an element whose id resolves
    always yields a record, so the check for a missing record after the id
    has been read is never taken; the group captured by an id pattern is
    never empty; and the url captured from a background image is never
    empty. *)
Theorem guards_never_fail :
  (∀ m el tid, extractTweetId el = Some tid →
               is_Some (extractTweetData m el tid)) ∧
  (∀ lit s mid, JsString.match_id lit s = Some mid →
                JsString.truthy mid = true) ∧
  (∀ style url, JsString.match_url style = Some url →
                JsString.truthy url = true).
Proof.
  split; [|split].
  - apply extractTweetData_some.
  - apply match_id_truthy.
  - apply match_url_truthy.
Qed.

(** X10. Processing an element again right after its record was extracted
    from it changes nothing in the record, and the late-media step applied
    twice does what it does once. *)
Theorem reprocessing_is_stable (m : gmap string (list string))
    (el : Element) (tid : string) (t : Tweet) (media : Media) :
  extractTweetData m el tid = Some t →
  late_media (extractMedia el) t = t ∧
  late_media media (late_media media t) = late_media media t.
Proof.
  intros Hx. split.
  - destruct (extractTweetData_media m el tid t Hx) as [Hi Hv].
    apply late_media_fixed.
    + rewrite Hi. auto.
    + intros Hne Hnil. apply Hne.
      destruct (m_videos (extractMedia el)) as [|v vs]; [reflexivity|].
      assert (Hin : v ∈ videos t).
      { rewrite Hv. apply fold_correlate_keeps, elem_of_of_list. left. }
      rewrite Hnil in Hin. inversion Hin.
  - destruct t as [i a x d p n ims vs], media as [mi mv mt].
    destruct mi, ims, mv, vs; reflexivity.
Qed.

Lemma reprocessing_is_stable_witness :
  ∃ t, extractTweetData ∅ Examples.video_article "7" = Some t ∧
       late_media (extractMedia Examples.video_article) t = t.
Proof.
  eexists. split; [reflexivity|].
  eapply (reprocessing_is_stable ∅ Examples.video_article "7" _
            (extractMedia Examples.video_article)).
  reflexivity.
Defined.

(** ** The loop, once more *)

Section LoopAgain.

(** As the earlier principle, with what each branch knows: the late-media
    branch runs only in a seeded call, and a capture only for an id that is
    not the stop id. *)
Lemma updateTweets_loop_keeps_strong (Q : World → Prop) (seeded ok : bool) :
  (∀ w tid media, Q w → tid ∈ processedTweetIds w → seeded = true →
     Q (set_tweets (update_first tid (late_media media) (tweets w)) w)) →
  (∀ w tid, Q w → tid ∉ processedTweetIds w → is_stop w tid = true →
     Q (cleanup ok (emit (LogReachedStop tid) w))) →
  (∀ w el tid t, Q w → tid ∉ processedTweetIds w → is_stop w tid = false →
     extractTweetData (mediaMap w) el tid = Some t → Q (capture tid t w)) →
  ∀ els w, Q w → Q (updateTweets_loop seeded ok els w).
Proof.
  intros Hlate Hstop Hcap els.
  induction els as [|el rest IH]; intros w HQ; [exact HQ|].
  cbn [updateTweets_loop].
  destruct (extractTweetId el) as [tid|]; [|auto].
  destruct (decide (tid ∈ processedTweetIds w)) as [Hin|Hout].
  - apply IH. destruct seeded; auto.
  - destruct (is_stop w tid) eqn:Hs; [auto|].
    destruct (extractTweetData (mediaMap w) el tid) as [t|] eqn:Hx; eauto.
Qed.

(** The batch side of one tick. *)
Lemma tick_batch (ok : bool) (h : Z) (w : World) :
  let full := batchSize (cfg w) <=? Z.of_nat (length (tweets w)) in
  tweets (tick ok h w) = (if full then [] else tweets w) ∧
  batchIndex (tick ok h w) = (if full then S (batchIndex w) else batchIndex w) ∧
  flush_attempts (trace (tick ok h w)) =
    flush_attempts (trace w) ++ (if full then [tweets w] else []) ∧
  captured_ids (trace (tick ok h w)) = captured_ids (trace w) ∧
  processedTweetIds (tick ok h w) = processedTweetIds w ∧
  timerActive (tick ok h w) = timerActive w ∧
  observerConnected (tick ok h w) = observerConnected w.
Proof.
  destruct w as [c ts ps bi sc ph ht ha ta oc mm tr].
  unfold tick, downloadTweetsAsJson.
  cbn -[Z.eqb Z.leb Nat.leb Z.mul Z.of_nat JsNumber.mul].
  destruct (h =? ph); [destruct (3 <=? S sc)%nat|];
    cbn -[Z.eqb Z.leb Nat.leb Z.mul Z.of_nat JsNumber.mul];
    destruct (batchSize c <=? Z.of_nat (length ts));
    try destruct ok; cbn -[Z.eqb Z.leb Nat.leb Z.mul Z.of_nat JsNumber.mul];
    rewrite ?captured_ids_snoc, ?flush_attempts_snoc, ?app_nil_r;
    repeat split; reflexivity.
Qed.

Lemma on_request_quiet (url : string) (w : World) :
  captured_ids (trace (on_request url w)) = captured_ids (trace w) ∧
  flush_attempts (trace (on_request url w)) = flush_attempts (trace w) ∧
  scrolls (trace (on_request url w)) = scrolls (trace w) ∧
  batchIndex (on_request url w) = batchIndex w ∧
  timerActive (on_request url w) = timerActive w ∧
  observerConnected (on_request url w) = observerConnected w.
Proof.
  unfold on_request, stash.
  destruct (JsString.includes url "video.twimg.com"); [|repeat split].
  destruct (JsString.match_id "ext_tw_video/" url); [|repeat split].
  cbn. rewrite captured_ids_snoc, flush_attempts_snoc, scrolls_snoc, !app_nil_r.
  repeat split.
Qed.

End LoopAgain.

(** X11. A full scan ([updateTweets] without seed elements) never touches
    a record that is already pending: the batch afterwards is the batch
    before, followed by the records the scan captured. *)
Theorem full_scan_keeps_records (ok : bool) (document : list Element)
    (w : World) :
  ∃ new,
    tweets (updateTweets ok None document w) = tweets w ++ new ∧
    captured_ids (trace (updateTweets ok None document w)) =
      captured_ids (trace w) ++ map tweetId new.
Proof.
  unfold updateTweets. cbn [default].
  replace (bool_decide (is_Some (@None (list Element)))) with false
    by (symmetry; apply bool_decide_eq_false; intros [x Hx]; discriminate).
  apply (updateTweets_loop_keeps_strong
    (fun w' => ∃ new,
       tweets w' = tweets w ++ new ∧
       captured_ids (trace w') = captured_ids (trace w) ++ map tweetId new)).
  - intros w' tid media _ _ Hseed. discriminate Hseed.
  - intros w' tid (new & Ht & Hc) _ _.
    destruct (cleanup_frame ok (emit (LogReachedStop tid) w')) as (_ & T & _).
    destruct (cleanup_quiet ok (emit (LogReachedStop tid) w')) as (K & _).
    exists new. rewrite T, K. cbn. rewrite captured_ids_snoc, app_nil_r. auto.
  - intros w' el tid t (new & Ht & Hc) _ _ Hx.
    apply extractTweetData_id in Hx. exists (new ++ [t]). cbn.
    rewrite Ht, captured_ids_snoc, Hc, map_app, <- !app_assoc. cbn [map].
    rewrite Hx. auto.
  - exists []. rewrite !app_nil_r. auto.
Qed.

(** X12. Elements with pairwise different ids, none processed yet and none
    the stop id, are all captured by one call, in the order given: the batch
    grows by their records, each as [extractTweetData] builds it with the
    table as it is, and their ids join the processed set. *)
Theorem fresh_elements_captured_in_order (seeded ok : bool)
    (els : list Element) (ids : list string) (w : World) :
  Forall2 (fun el tid => extractTweetId el = Some tid) els ids →
  NoDup ids →
  (∀ tid, tid ∈ ids → (tid ∉ processedTweetIds w) ∧ is_stop w tid = false) →
  ∃ recs,
    Forall2 (fun el t =>
               extractTweetData (mediaMap w) el (tweetId t) = Some t) els recs ∧
    map tweetId recs = ids ∧
    tweets (updateTweets_loop seeded ok els w) = tweets w ++ recs ∧
    captured_ids (trace (updateTweets_loop seeded ok els w)) =
      captured_ids (trace w) ++ ids ∧
    processedTweetIds (updateTweets_loop seeded ok els w) =
      processedTweetIds w ∪ list_to_set ids.
Proof.
  intros Hids. revert w.
  induction Hids as [|el tid els ids Hid _ IH]; intros w Hnd Hfresh.
  - exists []. cbn. rewrite !app_nil_r. repeat split; [constructor|].
    symmetry. apply (right_id_L ∅ (∪)).
  - apply NoDup_cons in Hnd as [Hnotin Hnd].
    destruct (Hfresh tid) as [Hout Hstop]; [left|].
    destruct (extractTweetData_some (mediaMap w) el tid Hid) as [t Hx].
    pose proof (extractTweetData_id _ _ _ _ Hx) as Ht.
    cbn [updateTweets_loop]. rewrite Hid.
    destruct (decide (tid ∈ processedTweetIds w)) as [Hin|_]; [tauto|].
    rewrite Hstop, Hx.
    destruct (IH (capture tid t w) Hnd) as (recs & Hrecs & Hmap & Htw & Hcap & Hp).
    { intros tid' Hin'. destruct (Hfresh tid') as [Hout' Hstop']; [right; exact Hin'|].
      split; [|exact Hstop'].
      cbn. rewrite elem_of_union, elem_of_singleton.
      intros [H | ->]; [auto | contradiction]. }
    exists (t :: recs). rewrite Htw, Hcap, Hp. cbn.
    rewrite captured_ids_snoc, <- !app_assoc. cbn [app map]. rewrite Ht, Hmap.
    repeat split; [constructor; [rewrite Ht; exact Hx | exact Hrecs]|].
    symmetry. apply (assoc_L (∪)).
Qed.

Lemma fresh_elements_captured_in_order_witness :
  map tweetId
    (tweets (updateTweets_loop true true
               [Examples.article "8" [] []; Examples.article "3" [] []]
               Examples.full_world))
  = ["7"; "8"; "3"].
Proof.
  assert (Hids : Forall2 (fun el tid => extractTweetId el = Some tid)
                   [Examples.article "8" [] []; Examples.article "3" [] []]
                   ["8"; "3"])
    by (repeat constructor).
  assert (Hnd : NoDup ["8"; "3"])
    by (apply (bool_decide_unpack _); vm_compute; reflexivity).
  assert (Hfresh : ∀ tid, tid ∈ ["8"; "3"] →
            (tid ∉ processedTweetIds Examples.full_world) ∧
            is_stop Examples.full_world tid = false).
  { intros tid Hin. split; [|reflexivity].
    intros H7. apply (proj1 (elem_of_singleton (C:=gset string) tid "7")) in H7.
    subst tid. revert Hin. apply (bool_decide_unpack _). vm_compute. reflexivity. }
  destruct (fresh_elements_captured_in_order true true _ _ Examples.full_world
              Hids Hnd Hfresh) as (recs & _ & Hmap & Htw & _).
  rewrite Htw, map_app, Hmap. reflexivity.
Defined.

(** ** Ledger of a session *)

Section Ledger.

Lemma ledger_quiet (w w' : World) :
  Ledger_inv w →
  cfg w' = cfg w →
  captured_ids (trace w') = captured_ids (trace w) →
  (map tweetId (tweets w') = map tweetId (tweets w) ∧
   (∀ b, b ∈ flush_attempts (trace w) → b ∈ flush_attempts (trace w')) ∨
   (∀ b, b ∈ flush_attempts (trace w) ∨ b = tweets w →
         b ∈ flush_attempts (trace w'))) →
  Ledger_inv w'.
Proof.
  intros [Hs Hk] Hc Hcap Hcase. constructor; rewrite ?Hc, ?Hcap; [exact Hs|].
  intros id Hid. destruct (Hk id Hid) as [Hp | (b & Hb & Hin)].
  - destruct Hcase as [[Hids _] | Hfl].
    + left. rewrite Hids. exact Hp.
    + right. exists (tweets w). split; [apply Hfl; right; reflexivity | exact Hp].
  - right. exists b. split; [|exact Hin].
    destruct Hcase as [[_ Hfl] | Hfl]; apply Hfl; auto.
Qed.

Lemma ledger_capture (w : World) (tid : string) (t : Tweet) :
  Ledger_inv w → is_stop w tid = false → tweetId t = tid →
  Ledger_inv (capture tid t w).
Proof.
  intros [Hs Hk] Hstop Ht. constructor; cbn;
    rewrite captured_ids_snoc, ?flush_attempts_snoc, ?app_nil_r.
  - intros sid Hsid Hin. apply elem_of_app in Hin as [Hin | Hin].
    + exact (Hs sid Hsid Hin).
    + apply list_elem_of_singleton in Hin as ->.
      unfold is_stop in Hstop. rewrite Hsid, String.eqb_refl in Hstop.
      discriminate.
  - intros id Hin. rewrite map_app. apply elem_of_app in Hin as [Hin | Hin].
    + destruct (Hk id Hin) as [Hp | Hf]; [left | right; exact Hf].
      apply elem_of_app. left. exact Hp.
    + left. apply elem_of_app. right. cbn. rewrite Ht. exact Hin.
Qed.

Lemma ledger_cleanup (ok : bool) (w : World) :
  Ledger_inv w → Ledger_inv (cleanup ok w).
Proof.
  intros H. destruct (cleanup_frame ok w) as (C & T & _).
  destruct (cleanup_quiet ok w) as (K & F).
  apply (ledger_quiet w); [exact H | exact C | exact K |].
  left. rewrite T. split; [reflexivity|].
  intros b Hb. rewrite F. apply elem_of_app. left. exact Hb.
Qed.

Lemma ledger_loop (seeded ok : bool) (els : list Element) (w : World) :
  Ledger_inv w → Ledger_inv (updateTweets_loop seeded ok els w).
Proof.
  apply updateTweets_loop_keeps_strong.
  - intros w' tid media H _ _. apply (ledger_quiet w'); cbn; auto.
    left. split; [apply update_first_ids, late_media_id | auto].
  - intros w' tid H _ _. apply ledger_cleanup.
    apply (ledger_quiet w'); cbn; auto.
    + rewrite captured_ids_snoc, app_nil_r. reflexivity.
    + left. split; [reflexivity|]. intros b.
      rewrite flush_attempts_snoc, app_nil_r. auto.
  - intros w' el tid t H _ Hstop Hx.
    apply ledger_capture; eauto using extractTweetData_id.
Qed.

Lemma ledger_step (w : World) (e : Event) :
  Ledger_inv w → Ledger_inv (step w e).
Proof.
  intros H. destruct e as [url | h ok | arts | ok]; cbn [step].
  - destruct (on_request_frame url w) as (C & T & _).
    destruct (on_request_quiet url w) as (K & F & _).
    apply (ledger_quiet w); auto. left. rewrite T, F. auto.
  - destruct (timerActive w); [|exact H].
    destruct (tick_batch ok h w) as (T & _ & F & K & _).
    apply (ledger_quiet w); [exact H | apply tick_frame | exact K |].
    destruct (batchSize (cfg w) <=? Z.of_nat (length (tweets w))).
    + right. intros b Hb. rewrite F, elem_of_app, list_elem_of_singleton.
      exact Hb.
    + left. rewrite T, F, app_nil_r. auto.
  - destruct (observerConnected w); [|exact H].
    unfold observer_callback. revert w H.
    induction arts as [|[art ok] arts IH]; intros w H; [exact H|].
    cbn [fold_left]. apply IH. apply ledger_loop, H.
  - apply ledger_cleanup, H.
Qed.

Lemma ledger_session (options : Options) (m0 : gmap string (list string))
    (document : list Element) (ok : bool) (events : list Event) :
  Ledger_inv (session options m0 document ok events).
Proof.
  unfold session, run.
  assert (H0 : Ledger_inv (new_TweetScraper options m0 document ok)).
  { unfold new_TweetScraper, updateTweets. apply ledger_loop.
    constructor; cbn.
    - intros sid _. apply not_elem_of_nil.
    - intros id H. inversion H. }
  revert H0. generalize (new_TweetScraper options m0 document ok).
  induction events as [|e events IH]; intros w H; [exact H|].
  cbn [fold_left]. apply IH, ledger_step, H.
Qed.

End Ledger.

(** X13. The stop id is never captured: whatever the page does, no record
    with the configured stop id is pending or in an exported batch. *)
Theorem stop_id_never_captured (options : Options)
    (mediaMap0 : gmap string (list string)) (document : list Element)
    (ok : bool) (events : list Event) (sid : string) :
  string_or_null (o_stopAtTweetId options) = Some sid →
  let w := session options mediaMap0 document ok events in
  (sid ∉ captured_ids (trace w)) ∧
  (∀ t, t ∈ tweets w → tweetId t ≠ sid) ∧
  (∀ b t, b ∈ flush_attempts (trace w) → t ∈ b → tweetId t ≠ sid).
Proof.
  intros Hopt w.
  destruct (ledger_session options mediaMap0 document ok events) as [Hs _].
  destruct (harvest_inv_session options mediaMap0 document ok events)
    as [_ _ T _ F _].
  fold w in Hs, T, F.
  assert (Hcfg : stopAtTweetId (cfg w) = Some sid).
  { subst w. unfold session. rewrite run_cfg, new_TweetScraper_cfg.
    exact Hopt. }
  specialize (Hs sid Hcfg). split; [exact Hs|]. split.
  - intros t Ht <-. apply Hs, T, Ht.
  - intros b t Hb Ht <-. apply Hs. eapply F; eassumption.
Qed.

Lemma stop_id_never_captured_witness :
  string_or_null (o_stopAtTweetId (mkOptions None None None (Some "9") None))
    = Some "9" ∧
  "9" ∉ captured_ids (trace
          (session (mkOptions None None None (Some "9") None) ∅
             [Examples.article "7" [] []; Examples.article "9" [] []] true
             [])).
Proof.
  split; [reflexivity|].
  apply (stop_id_never_captured (mkOptions None None None (Some "9") None) ∅
           [Examples.article "7" [] []; Examples.article "9" [] []] true []
           "9" eq_refl).
Defined.

(** X14. No captured record gets lost on the way: at every point of a
    session the id of every record ever captured is either pending or in a
    batch that was handed to [downloadTweetsAsJson]. *)
Theorem captured_records_accounted_for (options : Options)
    (mediaMap0 : gmap string (list string)) (document : list Element)
    (ok : bool) (events : list Event) (id : string) :
  let w := session options mediaMap0 document ok events in
  id ∈ captured_ids (trace w) →
  id ∈ map tweetId (tweets w) ∨
  ∃ b, b ∈ flush_attempts (trace w) ∧ id ∈ map tweetId b.
Proof.
  intros w. apply (ledger_session options mediaMap0 document ok events).
Qed.

Lemma captured_records_accounted_for_witness :
  let w := session (mkOptions None None (Some 1) None None) ∅
             [Examples.article "7" [] []] true [TimerFires 4000 false] in
  "7" ∈ captured_ids (trace w) ∧
  ("7" ∈ map tweetId (tweets w) ∨
   ∃ b, b ∈ flush_attempts (trace w) ∧ "7" ∈ map tweetId b).
Proof.
  assert (H : "7" ∈ captured_ids (trace
                (session (mkOptions None None (Some 1) None None) ∅
                   [Examples.article "7" [] []] true [TimerFires 4000 false])))
    by (vm_compute; left).
  split; [exact H|].
  exact (captured_records_accounted_for (mkOptions None None (Some 1) None None)
           ∅ [Examples.article "7" [] []] true [TimerFires 4000 false] "7" H).
Defined.

(** ** A session that is never stopped *)

Section Running.





End Running.



(** ** After the stop *)

Section Stopped.

Lemma only_requests_step (w0 w : World) (e : Event) :
  is_stop_call e = false →
  only_requests_since w0 w → only_requests_since w0 (step w e).
Proof.
  intros He (T & P & B & K & F & S & Ti & Ob).
  destruct e as [url | h ok | arts | ok]; cbn [step]; [| | |discriminate He].
  - destruct (on_request_frame url w) as (_ & T' & P').
    destruct (on_request_quiet url w) as (K' & F' & S' & B' & Ti' & Ob').
    unfold only_requests_since.
    rewrite T', P', K', F', S', B', Ti', Ob'. auto 10.
  - rewrite Ti. unfold only_requests_since. auto 10.
  - rewrite Ob. unfold only_requests_since. auto 10.
Qed.

End Stopped.

(** X16. [cleanup] is final for the timer and the observer: in whatever
    follows it short of another call of [cleanup], ticks and mutation
    batches are not delivered, so nothing is scrolled, captured, exported or
    cleared any more; only the request patches still fill the table. *)
Theorem nothing_runs_after_cleanup (ok : bool) (w : World)
    (events : list Event) :
  Forall (fun e => is_stop_call e = false) events →
  only_requests_since (cleanup ok w) (run (cleanup ok w) events).
Proof.
  intros Hev. unfold run.
  assert (H0 : only_requests_since (cleanup ok w) (cleanup ok w))
    by (unfold only_requests_since; auto 10 using cleanup_stops).
  revert H0. generalize (cleanup ok w) at 2 4.
  induction Hev as [|e events He _ IH]; intros w1 H1; [exact H1|].
  cbn [fold_left]. apply IH, only_requests_step; assumption.
Qed.

Lemma nothing_runs_after_cleanup_witness :
  tweets (run (cleanup true Examples.full_world)
              [TimerFires 5000 true;
               Mutated [(Examples.article "8" [] [], true)]])
  = [Examples.t7].
Proof.
  refine (proj1 (nothing_runs_after_cleanup true Examples.full_world
            [TimerFires 5000 true; Mutated [(Examples.article "8" [] [], true)]]
            _)).
  repeat constructor.
Defined.

(** ** Configuration and batching *)

Section Config.

Lemma number_or_nonzero (a : option Z) (d : Z) : d ≠ 0 → number_or a d ≠ 0.
Proof.
  intros Hd. unfold number_or. destruct a as [v|]; [|exact Hd].
  destruct (v =? 0) eqn:E; [exact Hd | apply Z.eqb_neq, E].
Qed.

Lemma string_or_null_nonempty (a : option string) :
  string_or_null a ≠ Some EmptyString.
Proof.
  unfold string_or_null. destruct a as [s|]; [|discriminate].
  destruct s; cbn; discriminate.
Qed.

End Config.

(** X17. The configuration is fixed by the constructor and never changes in
    the session.  An interval, step or batch size given as zero is replaced
    by its default, so none of the three is ever zero; an empty stop id
    counts as none; the ids to skip are kept without duplicates. *)
Theorem session_config (options : Options)
    (mediaMap0 : gmap string (list string)) (document : list Element)
    (ok : bool) (events : list Event) :
  let c := cfg (session options mediaMap0 document ok events) in
  c = cfg (new_TweetScraper options mediaMap0 document ok) ∧
  scrollIntervalMs c ≠ 0 ∧
  scrollStep c ≠ 0 ∧
  batchSize c ≠ 0 ∧
  stopAtTweetId c ≠ Some EmptyString ∧
  NoDup (skipTweetIds c) ∧
  (∀ id, id ∈ skipTweetIds c ↔ id ∈ default [] (o_skipTweetIds options)).
Proof.
  cbv zeta. unfold session. rewrite run_cfg, new_TweetScraper_cfg.
  cbn [scrollIntervalMs scrollStep batchSize stopAtTweetId skipTweetIds].
  split; [reflexivity|].
  repeat split; try (apply number_or_nonzero; discriminate).
  - apply string_or_null_nonempty.
  - apply of_list_NoDup.
  - apply elem_of_of_list.
  - apply elem_of_of_list.
Qed.

(** X18. A tick exports exactly when the pending batch has reached the batch
    size.  Below it, the batch, [batchIndex] and the exports stay as they
    are.  At or above it, the whole pending batch is handed to the export,
    however long it is, the batch is emptied and [batchIndex] goes up by
    one, whether the export went through or not. *)
Theorem tick_flushes_at_threshold (ok : bool) (h : Z) (w : World) :
  (Z.of_nat (length (tweets w)) < batchSize (cfg w) →
   tweets (tick ok h w) = tweets w ∧
   batchIndex (tick ok h w) = batchIndex w ∧
   flush_attempts (trace (tick ok h w)) = flush_attempts (trace w)) ∧
  (batchSize (cfg w) <= Z.of_nat (length (tweets w)) →
   tweets (tick ok h w) = [] ∧
   batchIndex (tick ok h w) = S (batchIndex w) ∧
   flush_attempts (trace (tick ok h w)) =
     flush_attempts (trace w) ++ [tweets w]) ∧
  captured_ids (trace (tick ok h w)) = captured_ids (trace w) ∧
  processedTweetIds (tick ok h w) = processedTweetIds w.
Proof.
  destruct (tick_batch ok h w) as (T & B & F & K & P & _).
  split; [|split; [|split; assumption]].
  - intros Hlt. apply Z.leb_gt in Hlt. rewrite Hlt in T, B, F.
    rewrite app_nil_r in F. auto.
  - intros Hle. apply Z.leb_le in Hle. rewrite Hle in T, B, F. auto.
Qed.

(** ** Background images *)

Section BackgroundImage.

(** Whether a string starts with a line terminator is decided within its
    first three bytes, and neither a closing parenthesis nor a double quote
    is one of the bytes of a terminator. *)
Lemma at_line_terminator_app (c : ascii) (u : string) (d : ascii)
    (rest : string) :
  Ascii.eqb d ")" || Ascii.eqb d JsString.dquote = true →
  JsString.at_line_terminator (String c (u ++ String d rest)) =
  JsString.at_line_terminator (String c u).
Proof.
  intros Hd.
  assert (H128 : Ascii.eqb d (ascii_of_nat 128) = false).
  { apply orb_true_iff in Hd as [Hd | Hd]; apply Ascii.eqb_eq in Hd;
      subst d; reflexivity. }
  assert (H16x : Ascii.eqb d (ascii_of_nat 168) || Ascii.eqb d (ascii_of_nat 169)
                 = false).
  { apply orb_true_iff in Hd as [Hd | Hd]; apply Ascii.eqb_eq in Hd;
      subst d; reflexivity. }
  destruct u as [|c1 [|c2 u2]]; rewrite ?append_cons;
    cbn [JsString.at_line_terminator].
  - change ("" ++ String d rest)%string with (String d rest).
    destruct rest; rewrite ?H128; reflexivity.
  - change ("" ++ String d rest)%string with (String d rest).
    cbv iota. rewrite H16x, andb_false_r. reflexivity.
  - reflexivity.
Qed.

Lemma lazy_close_clean (u acc post : string) :
  clean_url u = true →
  JsString.lazy_close acc (u ++ String ")" post) = Some (acc ++ u)%string ∧
  JsString.lazy_close acc (u ++ String JsString.dquote (String ")" post))
    = Some (acc ++ u)%string.
Proof.
  revert acc. induction u as [|c u IH]; intros acc Hu.
  - rewrite append_nil_r. split; [reflexivity|].
    change ("" ++ String JsString.dquote (String ")" post))%string
      with (String JsString.dquote (String ")" post)).
    cbn [JsString.lazy_close].
    assert (Hp : String.prefix ")" (String ")" post) = true)
      by (apply prefix_iff; exists post; reflexivity).
    rewrite Hp. reflexivity.
  - cbn [clean_url] in Hu.
    apply andb_true_iff in Hu as [Hu Hu'].
    apply andb_true_iff in Hu as [Hu Hlt].
    apply andb_true_iff in Hu as [Hp Hq].
    apply negb_true_iff in Hp, Hq, Hlt.
    destruct (IH (acc ++ String c EmptyString)%string Hu') as [IH1 IH2].
    rewrite !append_cons. cbn [JsString.lazy_close].
    rewrite !at_line_terminator_app by reflexivity.
    rewrite Hp, Hq, Hlt. cbn [andb].
    rewrite IH1, IH2, append_assoc. split; reflexivity.
Qed.

Lemma match_url_head (rest u : string) :
  JsString.url_at rest = Some u →
  JsString.match_url ("url(" ++ rest) = Some u.
Proof.
  intros H.
  change ("url(" ++ rest)%string
    with (String "u" (String "r" (String "l" (String "(" rest)))).
  cbn [JsString.match_url].
  assert (Hp : String.prefix "url("
                 (String "u" (String "r" (String "l" (String "(" rest))))
               = true) by (apply prefix_iff; exists rest; reflexivity).
  rewrite Hp. cbn [JsString.drop]. rewrite H. reflexivity.
Qed.

End BackgroundImage.

(** X19. A background image written as [url(u)] or with [u] between double
    quotes gives back [u], whenever [u] is not empty and has no closing
    parenthesis, no double quote and none of the four line terminators (LF,
    CR, U+2028, U+2029); the loop over the styled nodes then files [u] like
    the source of an image node. *)
Theorem background_url_recovered (u post : string)
    (acc : list string * list string) :
  u ≠ EmptyString →
  clean_url u = true →
  let bare := ("url(" ++ u ++ String ")" post)%string in
  let quoted :=
    ("url(" ++ String JsString.dquote
               (u ++ String JsString.dquote (String ")" post)))%string in
  JsString.match_url bare = Some u ∧
  JsString.match_url quoted = Some u ∧
  classify_bg acc bare = classify_img acc u ∧
  classify_bg acc quoted = classify_img acc u.
Proof.
  intros Hne Hu bare quoted.
  destruct u as [|c u]; [congruence|].
  pose proof Hu as Hu0. cbn [clean_url] in Hu.
  apply andb_true_iff in Hu as [Hu Hu'].
  apply andb_true_iff in Hu as [Hu Hlt].
  apply andb_true_iff in Hu as [Hp Hq].
  apply negb_true_iff in Hp, Hq, Hlt.
  destruct (lazy_close_clean u (String c EmptyString) post Hu') as [L1 L2].
  assert (Hb : JsString.match_url bare = Some (String c u)).
  { apply match_url_head. rewrite append_cons.
    unfold JsString.url_at, JsString.lazy_group.
    rewrite Hq, at_line_terminator_app, Hlt by reflexivity. exact L1. }
  assert (Hqd : JsString.match_url quoted = Some (String c u)).
  { apply match_url_head. unfold JsString.url_at. rewrite Ascii.eqb_refl.
    rewrite append_cons. unfold JsString.lazy_group at 1.
    rewrite at_line_terminator_app, Hlt, L2 by reflexivity.
    reflexivity. }
  unfold classify_bg, classify_img. rewrite Hb, Hqd. auto.
Qed.

Lemma background_url_recovered_witness :
  JsString.match_url
    ("url(" ++ String JsString.dquote
       ("https://pbs.twimg.com/media/a.jpg" ++
        String JsString.dquote (String ")" EmptyString)))%string
  = Some "https://pbs.twimg.com/media/a.jpg"%string.
Proof.
  refine (proj1 (proj2 (background_url_recovered
            "https://pbs.twimg.com/media/a.jpg" EmptyString ([], []) _ eq_refl))).
  discriminate.
Defined.

(** ** The HUD, repeated stops, late images *)

Section Misc.

Lemma update_first_at (tid : string) (f : Tweet → Tweet)
    (pre post : list Tweet) (t : Tweet) :
  Forall (fun r => tweetId r ≠ tid) pre → tweetId t = tid →
  update_first tid f (pre ++ t :: post) = pre ++ f t :: post.
Proof.
  intros Hpre Ht. induction Hpre as [|r pre Hr _ IH]; cbn [app update_first].
  - rewrite Ht, String.eqb_refl. reflexivity.
  - apply String.eqb_neq in Hr. rewrite Hr, IH. reflexivity.
Qed.

Lemma late_media_fills (media : Media) (t : Tweet) :
  (images t = [] → images (late_media media t) = m_images media) ∧
  (videos t = [] → videos (late_media media t) = m_videos media).
Proof.
  destruct t as [i a x d p n ims vs], media as [mi mv mt].
  split; cbn; intros ->; destruct mi, mv; try reflexivity;
    try (destruct vs; reflexivity); destruct ims; reflexivity.
Qed.


Lemma stop_element_alone (ok : bool) (stopEl : Element) (sid : string)
    (w : World) :
  extractTweetId stopEl = Some sid →
  stopAtTweetId (cfg w) = Some sid →
  sid ∉ processedTweetIds w →
  updateTweets ok (Some [stopEl]) [] w =
  cleanup ok (emit (LogReachedStop sid) w).
Proof.
  intros Hid Hstop Hout. unfold updateTweets.
  change (default [] (Some [stopEl])) with [stopEl].
  cbn [updateTweets_loop]. rewrite Hid. destruct (decide (sid ∈ processedTweetIds w)); [tauto|].
  unfold is_stop. rewrite Hstop, String.eqb_refl. reflexivity.
Qed.

End Misc.


(** X21. [cleanup] does not end the mutation callback that reached it, and
    the stop id is never marked as processed: a batch of mutations that
    meets the stop element twice runs [cleanup] twice and hands the same
    pending records to the export twice. *)
Theorem stop_twice_in_one_callback_exports_twice (ok1 ok2 : bool)
    (stopEl : Element) (sid : string) (w : World) :
  extractTweetId stopEl = Some sid →
  stopAtTweetId (cfg w) = Some sid →
  sid ∉ processedTweetIds w →
  tweets w ≠ [] →
  let w' := observer_callback [(stopEl, ok1); (stopEl, ok2)] w in
  flush_attempts (trace w') = flush_attempts (trace w) ++ [tweets w; tweets w] ∧
  tweets w' = tweets w.
Proof.
  intros Hid Hstop Hout Hne w'. subst w'. unfold observer_callback.
  cbn [fold_left].
  rewrite (stop_element_alone ok1 stopEl sid w Hid Hstop Hout).
  set (w1 := cleanup ok1 (emit (LogReachedStop sid) w)).
  destruct (cleanup_frame ok1 (emit (LogReachedStop sid) w))
    as (C1 & T1 & P1 & _).
  destruct (cleanup_quiet ok1 (emit (LogReachedStop sid) w)) as (_ & F1).
  assert (C1' : cfg w1 = cfg w) by exact C1.
  assert (T1' : tweets w1 = tweets w) by exact T1.
  assert (P1' : processedTweetIds w1 = processedTweetIds w) by exact P1.
  assert (F1' : flush_attempts (trace w1) =
                flush_attempts (trace w) ++ [tweets w]).
  { unfold w1. rewrite F1. change (tweets (emit (LogReachedStop sid) w))
      with (tweets w).
    change (trace (emit (LogReachedStop sid) w))
      with (trace w ++ [LogReachedStop sid]).
    rewrite flush_attempts_snoc, app_nil_r.
    destruct (tweets w); [congruence | reflexivity]. }
  clearbody w1.
  rewrite (stop_element_alone ok2 stopEl sid w1);
    [| exact Hid | rewrite C1'; exact Hstop | rewrite P1'; exact Hout].
  destruct (cleanup_frame ok2 (emit (LogReachedStop sid) w1)) as (_ & T2 & _).
  destruct (cleanup_quiet ok2 (emit (LogReachedStop sid) w1)) as (_ & F2).
  rewrite T2, F2.
  change (tweets (emit (LogReachedStop sid) w1)) with (tweets w1).
  change (trace (emit (LogReachedStop sid) w1))
    with (trace w1 ++ [LogReachedStop sid]).
  rewrite flush_attempts_snoc, app_nil_r, F1', T1'.
  destruct (tweets w) as [|t ts]; [congruence|].
  rewrite <- app_assoc. split; reflexivity.
Qed.

Lemma stop_twice_in_one_callback_exports_twice_witness :
  let w := mkWorld (mkConfig 1000 800 100 (Some "9") []) [Examples.t7] {["7"]}
             0 0 4000 (0%nat, 1%nat) true true true ∅ [] in
  flush_attempts
    (trace (observer_callback [(Examples.article "9" [] [], true);
                               (Examples.article "9" [] [], true)] w))
  = [[Examples.t7]; [Examples.t7]].
Proof.
  cbv zeta.
  refine (proj1 (stop_twice_in_one_callback_exports_twice true true
            (Examples.article "9" [] []) "9"
            (mkWorld (mkConfig 1000 800 100 (Some "9") []) [Examples.t7]
               {["7"]} 0 0 4000 (0%nat, 1%nat) true true true ∅ [])
            eq_refl eq_refl _ _)).
  - intros H. apply (proj1 (elem_of_singleton (C:=gset string) "9" "7")) in H.
    discriminate H.
  - discriminate.
Defined.

(** X22. What the late-media branch does achieve: when a mutation brings
    back the element of a pending record that has no images yet and the
    element now shows photos, that record, and no other, takes the photos;
    the same holds for videos and the sources of video nodes. *)
Theorem late_images_are_picked_up (ok : bool) (el : Element) (tid : string)
    (pre post : list Tweet) (t : Tweet) (w : World) :
  extractTweetId el = Some tid →
  tid ∈ processedTweetIds w →
  tweets w = pre ++ t :: post →
  Forall (fun r => tweetId r ≠ tid) pre →
  tweetId t = tid →
  let w' := updateTweets ok (Some [el]) [] w in
  ∃ t',
    tweets w' = pre ++ t' :: post ∧
    same_but_media t t' ∧
    (images t = [] → images t' = m_images (extractMedia el)) ∧
    (videos t = [] → videos t' = m_videos (extractMedia el)) ∧
    (images t ≠ [] → images t' = images t) ∧
    (videos t ≠ [] → videos t' = videos t).
Proof.
  intros Hid Hin Htw Hpre Ht w'. subst w'.
  exists (late_media (extractMedia el) t).
  split; [|split; [apply late_media_same|]].
  - unfold updateTweets. change (default [] (Some [el])) with [el].
    cbn [updateTweets_loop]. rewrite Hid.
    destruct (decide (tid ∈ processedTweetIds w)); [|tauto].
    replace (bool_decide (is_Some (Some [el]))) with true
      by (symmetry; apply bool_decide_eq_true; eauto).
    cbn. rewrite Htw. apply update_first_at; assumption.
  - destruct (late_media_keeps_populated (extractMedia el) t) as [K1 K2].
    destruct (late_media_fills (extractMedia el) t) as [F1 F2].
    repeat split; assumption.
Qed.

Lemma late_images_are_picked_up_witness :
  map images
    (tweets (updateTweets true
               (Some [Examples.article "7"
                        ["https://pbs.twimg.com/media/a.jpg"] []])
               [] Examples.full_world))
  = [["https://pbs.twimg.com/media/a.jpg"]].
Proof.
  destruct (late_images_are_picked_up true
              (Examples.article "7" ["https://pbs.twimg.com/media/a.jpg"] [])
              "7" [] [] Examples.t7 Examples.full_world eq_refl
              (proj2 (elem_of_singleton (C:=gset string) "7" "7") eq_refl)
              eq_refl (List.Forall_nil _) eq_refl)
    as (t' & Htw & _ & Hi & _).
  rewrite Htw. cbn [map app]. rewrite (Hi eq_refl). reflexivity.
Defined.
